(** * Admin dashboard: waitlist grouping, admin verification, waitlist viewer

    A shallow embedding of the TypeScript sources

      - [verifyAdminRequest]            (app/lib/supabase.ts),
      - [GET] of the waitlist route     (the second unnamed source file),
      - [getInitialWaitlist]            (app/waitlist/page.tsx),
      - [fetchWaitlist] and its effect  (the waitlist viewer component),

    together with a model of the hourly sales bucketing that the ticket
    sales chart consumes.  Values are modelled as the code has them:
    nullable fields are [option]s, a [Record<string, T>] is a JavaScript
    object with its own-property order and its prototype, an exception is
    an explicit outcome, and what a query or a fetch resolves to is an
    argument. *)

From Stdlib Require Import String Ascii List Bool Arith NArith ZArith Lia.
From Stdlib Require Import Permutation Sorted DecimalString.
Import ListNotations.

Local Open Scope string_scope.
Local Open Scope list_scope.

(* ===================================================================== *)
(** * JavaScript values used by the sources *)
(* ===================================================================== *)

(** Truthiness of a [string | null] value: [null], [undefined] and the empty
    string are falsy. [truthy] returns the string when it is truthy. *)
Definition truthy (v : option string) : option string :=
  match v with
  | Some s => if String.eqb s "" then None else Some s
  | None => None
  end.

(** An exception thrown by the runtime. The only one the modelled code can
    provoke is a [TypeError] (a method call on [undefined]). *)
Inductive JsError : Type :=
| TypeError.

(** Outcome of a block that may throw. *)
Inductive Outcome (A : Type) : Type :=
| Ok (a : A)
| Throw (e : JsError).
Arguments Ok {A} a.
Arguments Throw {A} e.

Definition bind {A B : Type} (m : Outcome A) (k : A -> Outcome B) : Outcome B :=
  match m with
  | Ok a => k a
  | Throw e => Throw e
  end.

Notation "x <- m ;; k" := (bind m (fun x => k))
  (at level 61, m at next level, right associativity).

(** [Array.prototype.forEach] with a callback that updates an accumulator
    captured by closure: the callback runs on each element in order, and an
    exception thrown by one call ends the loop. *)
Fixpoint forEach {A S : Type} (f : S -> A -> Outcome S) (xs : list A) (st : S)
  : Outcome S :=
  match xs with
  | [] => Ok st
  | x :: rest => st' <- f st x ;; forEach f rest st'
  end.

(* ===================================================================== *)
(** * Plain JavaScript objects used as string-keyed maps *)
(* ===================================================================== *)

Module JsObject.

(** Property names every object literal inherits from [Object.prototype]. *)
Definition prototype_keys : list string :=
  [ "__proto__"; "constructor"; "hasOwnProperty"; "isPrototypeOf";
    "propertyIsEnumerable"; "toLocaleString"; "toString"; "valueOf";
    "__defineGetter__"; "__defineSetter__";
    "__lookupGetter__"; "__lookupSetter__" ].

Definition inherited (k : string) : bool :=
  existsb (String.eqb k) prototype_keys.

(** ** Array-index keys

    A property key is an array index when it is the canonical decimal
    spelling of an integer in [0, 2^32 - 2]. *)
Definition digit_of (c : ascii) : option N :=
  let n := N_of_ascii c in
  if (48 <=? n)%N && (n <=? 57)%N then Some (n - 48)%N else None.

Fixpoint parse_digits (acc : N) (s : string) : option N :=
  match s with
  | EmptyString => Some acc
  | String c rest =>
      match digit_of c with
      | Some d => parse_digits (10 * acc + d)%N rest
      | None => None
      end
  end.

Definition array_index (k : string) : option N :=
  match k with
  | EmptyString => None
  | String c rest =>
      if Ascii.eqb c "0"%char && negb (String.eqb rest "") then None
      else match parse_digits 0%N k with
           | Some n => if (n <=? 4294967294)%N then Some n else None
           | None => None
           end
  end.

Definition is_array_index (k : string) : bool :=
  match array_index k with Some _ => true | None => false end.

Section WithValue.
Variable V : Type.

(** Own properties, in creation order. Keys are unique. *)
Definition t : Type := list (string * V).

Definition empty : t := [].

Fixpoint own (o : t) (k : string) : option V :=
  match o with
  | [] => None
  | (k', v) :: rest => if String.eqb k k' then Some v else own rest k
  end.

(** Result of the property read [o[k]]. *)
Inductive Lookup : Type :=
| Own (v : V)      (* an own property *)
| Inherited        (* found on [Object.prototype] *)
| Undefined.

Definition get (o : t) (k : string) : Lookup :=
  match own o k with
  | Some v => Own v
  | None => if inherited k then Inherited else Undefined
  end.

(** In-place update of the value stored under an own key. *)
Fixpoint modify (o : t) (k : string) (f : V -> V) : t :=
  match o with
  | [] => []
  | (k', v) :: rest =>
      if String.eqb k k' then (k', f v) :: rest
      else (k', v) :: modify rest k f
  end.

(** The assignment [o[k] = v] for a key that is not inherited:
    overwrite an own property in place, or create it last. *)
Definition set (o : t) (k : string) (v : V) : t :=
  match own o k with
  | Some _ => modify o k (fun _ => v)
  | None => o ++ [(k, v)]
  end.

(** Insertion into a list sorted by ascending index. *)
Fixpoint insert_index (x : N * V) (l : list (N * V)) : list (N * V) :=
  match l with
  | [] => [x]
  | y :: rest =>
      if (fst x <=? fst y)%N then x :: y :: rest
      else y :: insert_index x rest
  end.

Fixpoint sort_index (l : list (N * V)) : list (N * V) :=
  match l with
  | [] => []
  | x :: rest => insert_index x (sort_index rest)
  end.

Fixpoint index_entries (o : t) : list (N * V) :=
  match o with
  | [] => []
  | (k, v) :: rest =>
      match array_index k with
      | Some n => (n, v) :: index_entries rest
      | None => index_entries rest
      end
  end.

Definition string_entries (o : t) : list (string * V) :=
  filter (fun kv => negb (is_array_index (fst kv))) o.

(** [Object.values(o)]: own properties whose key is an array index come
    first, in ascending numeric order; the others follow in creation
    order. *)
Definition values (o : t) : list V :=
  map snd (sort_index (index_entries o)) ++ map snd (string_entries o).
End WithValue.

Arguments empty {V}.
Arguments own {V} o k.
Arguments Own {V} v.
Arguments Inherited {V}.
Arguments Undefined {V}.
Arguments get {V} o k.
Arguments modify {V} o k f.
Arguments set {V} o k v.
Arguments insert_index {V} x l.
Arguments sort_index {V} l.
Arguments index_entries {V} o.
Arguments string_entries {V} o.
Arguments values {V} o.

End JsObject.

(* ===================================================================== *)
(** * Data model of the waitlist views *)
(* ===================================================================== *)

(** [WaitlistEntry] (page.tsx, WaitlistViewerClient.tsx). *)
Record WaitlistEntry : Type := {
  w_id : string;
  w_email : string;
  w_referral : option string;
  w_position : Z;
  w_created_at : string
}.

(** [EventDetails]. *)
Record EventDetails : Type := {
  e_id : string;
  e_name : option string;
  e_capacity : Z;
  e_reserved : option Z;
  e_start_time_date : option string;
  e_venue : option string
}.

(** [EventGroup]. *)
Record EventGroup : Type := {
  event : EventDetails;
  waitlist : list WaitlistEntry;
  totalCount : nat
}.

(** The nested [events ( id, name, ... )] record as the query returns it:
    the declared type says [id: string], the code nevertheless tests it. *)
Record RawEvent : Type := {
  raw_id : option string;
  raw_name : option string;
  raw_capacity : Z;
  raw_reserved : option Z;
  raw_start_time_date : option string;
  raw_venue : option string
}.

(** The [events] relation of a joined row: the query layer encodes the
    to-one join as an object, as an array, or as [null]. *)
Inductive EventsRelation : Type :=
| RelNull
| RelObject (e : RawEvent)
| RelArray (es : list RawEvent).

(** One row of the joined [waitlist] query. *)
Record JoinedRow : Type := {
  r_id : string;
  r_email : string;
  r_referral : option string;
  r_position : Z;
  r_created_at : string;
  r_event_id : option string;
  r_events : EventsRelation
}.

(* ===================================================================== *)
(** * The grouping loop of [GET] and [getInitialWaitlist] *)
(* ===================================================================== *)

(** [if (Array.isArray(entry.events)) eventData = entry.events[0] || null;
     else if (entry.events) eventData = entry.events;] *)
Definition resolveEvents (rel : EventsRelation) : option RawEvent :=
  match rel with
  | RelArray es => match es with e :: _ => Some e | [] => None end
  | RelObject e => Some e
  | RelNull => None
  end.

(** The [event] field of the object literal stored on first sight of an
    event id: a copy of the nested record, field by field. *)
Definition eventOf (eventData : RawEvent) (id : string) : EventDetails :=
  {| e_id := id;
     e_name := raw_name eventData;
     e_capacity := raw_capacity eventData;
     e_reserved := raw_reserved eventData;
     e_start_time_date := raw_start_time_date eventData;
     e_venue := raw_venue eventData |}.

Definition emptyGroup (e : EventDetails) : EventGroup :=
  {| event := e; waitlist := []; totalCount := 0 |}.

(** The object literal itself. *)
Definition newGroup (eventData : RawEvent) (id : string) : EventGroup :=
  emptyGroup (eventOf eventData id).

(** The entry pushed on the group's waitlist. *)
Definition entryOf (entry : JoinedRow) : WaitlistEntry :=
  {| w_id := r_id entry;
     w_email := r_email entry;
     w_referral := r_referral entry;
     w_position := r_position entry;
     w_created_at := r_created_at entry |}.

Definition push (w : WaitlistEntry) (g : EventGroup) : EventGroup :=
  {| event := event g; waitlist := waitlist g ++ [w]; totalCount := totalCount g |}.

Definition increment (g : EventGroup) : EventGroup :=
  {| event := event g; waitlist := waitlist g; totalCount := S (totalCount g) |}.

(** [groupedByEvent[eventId].waitlist.push(...)]: reading [.waitlist] of an
    inherited value (a function, or [Object.prototype]) gives [undefined],
    and calling [push] on it throws. *)
Definition pushOn (groupedByEvent : JsObject.t EventGroup) (eventId : string)
    (w : WaitlistEntry) : Outcome (JsObject.t EventGroup) :=
  match JsObject.get groupedByEvent eventId with
  | JsObject.Own _ => Ok (JsObject.modify groupedByEvent eventId (push w))
  | JsObject.Inherited => Throw TypeError
  | JsObject.Undefined => Throw TypeError
  end.

(** [groupedByEvent[eventId].totalCount++]. On an inherited value the
    increment would land on that value and leave the object as it is; the
    push before it has thrown by then. *)
Definition incrementOn (groupedByEvent : JsObject.t EventGroup) (eventId : string)
  : Outcome (JsObject.t EventGroup) :=
  match JsObject.get groupedByEvent eventId with
  | JsObject.Own _ => Ok (JsObject.modify groupedByEvent eventId increment)
  | JsObject.Inherited => Ok groupedByEvent
  | JsObject.Undefined => Throw TypeError
  end.

(** The body of the [forEach] callback. *)
Definition groupEntry (groupedByEvent : JsObject.t EventGroup) (entry : JoinedRow)
  : Outcome (JsObject.t EventGroup) :=
  match truthy (r_event_id entry) with
  | None => Ok groupedByEvent                          (* if (!eventId) return; *)
  | Some eventId =>
      match resolveEvents (r_events entry) with
      | None => Ok groupedByEvent                      (* if (!eventData ...) return; *)
      | Some eventData =>
          match truthy (raw_id eventData) with
          | None => Ok groupedByEvent                  (* if (... !eventData.id) return; *)
          | Some id =>
              let created :=
                match JsObject.get groupedByEvent eventId with
                | JsObject.Undefined =>                (* if (!groupedByEvent[eventId]) *)
                    JsObject.set groupedByEvent eventId (newGroup eventData id)
                | _ => groupedByEvent
                end in
              pushed <- pushOn created eventId (entryOf entry) ;;
              incrementOn pushed eventId
          end
      end
  end.

(** [waitlistEntries?.forEach(...)] starting from [groupedByEvent = {}]. *)
Definition groupByEvent (waitlistEntries : option (list JoinedRow))
  : Outcome (JsObject.t EventGroup) :=
  match waitlistEntries with
  | None => Ok JsObject.empty
  | Some rows => forEach groupEntry rows JsObject.empty
  end.

(* ===================================================================== *)
(** * Admin verification ([app/lib/supabase.ts]) *)
(* ===================================================================== *)

(** [String.prototype.split] with a one-character separator: the pieces
    between separators, empty pieces included; the empty string splits
    into one empty piece. *)
Fixpoint split (sep : ascii) (s : string) : list string :=
  match s with
  | EmptyString => [ "" ]
  | String c rest =>
      if Ascii.eqb c sep then "" :: split sep rest
      else match split sep rest with
           | tok :: toks => String c tok :: toks
           | [] => [ String c "" ]
           end
  end.

(** [Array.prototype.includes] on strings. *)
Definition includes (xs : list string) (x : string) : bool :=
  existsb (String.eqb x) xs.

(** Whether a string contains the character. *)
Fixpoint mentions (sep : ascii) (s : string) : bool :=
  match s with
  | EmptyString => false
  | String c rest => Ascii.eqb c sep || mentions sep rest
  end.

(** The [{ data, error }] pair a query resolves to. *)
Record QueryResult (A : Type) : Type := {
  data : option A;
  error : option string
}.
Arguments data {A} q.
Arguments error {A} q.

(** The user of [supabase.auth.getUser()]. *)
Record AuthUser : Type := {
  user_email : option string
}.

Record GetUserResult : Type := {
  user : option AuthUser;
  userError : option string
}.

(** A row of the [roles] table restricted to its [roles] column. *)
Record RolesRecord : Type := {
  roles : option string
}.

(** The service-key client, as the answers its queries resolve to. *)
Record SupabaseClient : Type := {
  (* from("roles").select("roles").eq("email", e).single() *)
  roles_single : string -> option RolesRecord;
  (* from("events").select(...).eq("id", id).single() *)
  events_single : string -> QueryResult RawEvent;
  (* from("waitlist").select(...).eq("event_id", id).order("position") *)
  waitlist_of_event : string -> QueryResult (list WaitlistEntry);
  (* from("waitlist").select(`..., events ( ... )`).order(...).order(...) *)
  waitlist_joined : QueryResult (list JoinedRow)
}.

(** [AdminVerificationResult = UnauthorizedResult | AuthorizedResult]. *)
Inductive AdminVerificationResult : Type :=
| Unauthorized (error : string)
| Authorized (email : string) (adminClient : SupabaseClient).

Definition authorized (r : AdminVerificationResult) : bool :=
  match r with
  | Authorized _ _ => true
  | Unauthorized _ => false
  end.

(** [user?.email] *)
Definition email_of (u : option AuthUser) : option string :=
  match u with
  | Some usr => user_email usr
  | None => None
  end.

Definition verifyAdminRequest (session : GetUserResult) (adminClient : SupabaseClient)
  : AdminVerificationResult :=
  match userError session, truthy (email_of (user session)) with
  | Some _, _ => Unauthorized "Not authenticated"
  | None, None => Unauthorized "Not authenticated"
  | None, Some email =>
      match roles_single adminClient email with
      | None => Unauthorized "Not authorized"
      | Some adminRecord =>
          match roles adminRecord with
          | None => Unauthorized "Not authorized"
          | Some rs =>
              if includes (split ","%char rs) "admin"
              then Authorized email adminClient
              else Unauthorized "Not authorized"
          end
      end
  end.

(* ===================================================================== *)
(** * The waitlist endpoint and the server-rendered page *)
(* ===================================================================== *)

(** The JSON bodies the route answers with. *)
Inductive JsonBody : Type :=
| ErrorBody (error : string)                             (* { error } *)
| SingleBody (event : RawEvent) (waitlist : list WaitlistEntry)
             (totalCount : nat)                          (* grouped: false *)
| GroupedBody (leaderboard : list EventGroup).           (* grouped: true *)

Record Response : Type := {
  status : nat;
  body : JsonBody
}.

Definition json (b : JsonBody) (st : nat) : Response :=
  {| status := st; body := b |}.

Section WaitlistRoute.

(** [isValidUUID] of [app/lib/validation], whose source is not part of
    the development: the route is modelled for any such predicate. *)
Variable isValidUUID : string -> bool.

(** [GET(req)] as a function of the session, the client the verification
    hands back, and the [eventId] search parameter. *)
Definition GET (session : GetUserResult) (client : SupabaseClient)
    (eventIdParam : option string) : Response :=
  match verifyAdminRequest session client with
  | Unauthorized err => json (ErrorBody err) 401
  | Authorized _ adminClient =>
      match truthy eventIdParam with
      | Some eventId =>
          if negb (isValidUUID eventId)
          then json (ErrorBody "Invalid event ID format") 400
          else
            let ev := events_single adminClient eventId in
            match error ev, data ev with
            | Some _, _ => json (ErrorBody "Event not found") 404
            | None, None => json (ErrorBody "Event not found") 404
            | None, Some event =>
                let wl := waitlist_of_event adminClient eventId in
                match error wl with
                | Some _ => json (ErrorBody "Failed to fetch waitlist") 500
                | None =>
                    match data wl with
                    | Some waitlist => json (SingleBody event waitlist (length waitlist)) 200
                    | None => json (SingleBody event [] 0) 200
                    end
                end
            end
      | None =>
          let q := waitlist_joined adminClient in
          match error q with
          | Some _ => json (ErrorBody "Failed to fetch waitlist") 500
          | None =>
              match groupByEvent (data q) with
              | Ok groupedByEvent => json (GroupedBody (JsObject.values groupedByEvent)) 200
              | Throw _ => json (ErrorBody "Internal server error") 500   (* catch *)
              end
          end
      end
  end.

End WaitlistRoute.

(** The value [getInitialWaitlist] resolves to. *)
Record InitialWaitlist : Type := {
  initial_waitlist : list EventGroup;
  isGrouped : bool
}.

Definition getInitialWaitlist (session : GetUserResult) (client : SupabaseClient)
  : InitialWaitlist :=
  match verifyAdminRequest session client with
  | Unauthorized _ => {| initial_waitlist := []; isGrouped := true |}
  | Authorized _ adminClient =>
      let q := waitlist_joined adminClient in
      match error q with
      | Some _ => {| initial_waitlist := []; isGrouped := true |}
      | None =>
          match groupByEvent (data q) with
          | Ok groupedByEvent =>
              {| initial_waitlist := JsObject.values groupedByEvent; isGrouped := true |}
          | Throw _ => {| initial_waitlist := []; isGrouped := true |}      (* catch *)
          end
      end
  end.

(* ===================================================================== *)
(** * The waitlist viewer ([WaitlistViewerClient]) *)
(* ===================================================================== *)

Module Viewer.

(** What [fetch] resolves to, as far as [fetchWaitlist] reads it.
    [parsed] is the result of [response.json()]: a body, or the message
    of the error it rejects with. *)
Record HttpResponse : Type := {
  ok : bool;
  http_status : nat;
  statusText : string;
  contentType : option string;
  parsed : string + JsonBody
}.

(** The [waitlist] state: [EventGroup[] | WaitlistEntry[]]. *)
Inductive Shown : Type :=
| Groups (groups : list EventGroup)
| Entries (entries : list WaitlistEntry).

(** The component's state variables. *)
Record State : Type := {
  shown : Shown;                 (* waitlist *)
  selectedEventId : string;
  isLoading : bool;
  errorMessage : option string;  (* error *)
  grouped : bool                 (* isGrouped *)
}.

(** The component together with the requests it has issued and that have
    not resolved yet: the [eventId] parameter of each, oldest first. *)
Record Config : Type := {
  view : State;
  inflight : list string
}.

Definition decimal (n : nat) : string :=
  NilEmpty.string_of_uint (Nat.to_uint n).

(** [contentType.includes("application/json")] *)
Definition mentions_json (ct : string) : bool :=
  match String.index 0 "application/json" ct with
  | Some _ => true
  | None => false
  end.

(** First half of [fetchWaitlist], up to the [await fetch(...)]. *)
Definition fetch_start (c : Config) : Config :=
  {| view := {| shown := shown (view c);
                selectedEventId := selectedEventId (view c);
                isLoading := true;
                errorMessage := None;
                grouped := grouped (view c) |};
     inflight := inflight c ++ [ selectedEventId (view c) ] |}.

Definition fail (s : State) (msg : string) : State :=
  {| shown := shown s; selectedEventId := selectedEventId s;
     isLoading := false; errorMessage := Some msg; grouped := grouped s |}.

Definition display (s : State) (w : Shown) (g : bool) : State :=
  {| shown := w; selectedEventId := selectedEventId s;
     isLoading := false; errorMessage := errorMessage s; grouped := g |}.

(** Second half of [fetchWaitlist]: everything after [await fetch(...)],
    the [catch] and the [finally] included. *)
Definition fetch_settle (s : State) (response : HttpResponse) : State :=
  if negb (ok response) then
    match parsed response with
    | inr (ErrorBody e) =>
        fail s (match truthy (Some e) with
                | Some m => m
                | None => "Failed to fetch waitlist"
                end)
    | inr _ => fail s "Failed to fetch waitlist"
    | inl _ =>
        fail s ("HTTP " ++ decimal (http_status response) ++ ": "
                ++ statusText response)
    end
  else
    match contentType response with
    | None => fail s "Invalid response format from server"
    | Some ct =>
        if negb (mentions_json ct)
        then fail s "Invalid response format from server"
        else
          match parsed response with
          | inl msg => fail s msg
          | inr (GroupedBody leaderboard) => display s (Groups leaderboard) true
          | inr (SingleBody _ waitlist _) => display s (Entries waitlist) false
          | inr (ErrorBody _) => display s (Entries []) false
          end
    end.

Fixpoint remove_nth {A : Type} (n : nat) (l : list A) : list A :=
  match n, l with
  | _, [] => []
  | O, _ :: rest => rest
  | S m, x :: rest => x :: remove_nth m rest
  end.

(** What happens to the component. *)
Inductive Event : Type :=
| Select (eventId : string)   (* the filter's onChange *)
| Refresh                     (* handleRefresh *)
| Resolve (n : nat).          (* the n-th request in flight resolves *)

Section Run.
(** The answer of [/api/waitlist] to a request with the given
    [eventId] parameter (empty: none). *)
Variable server : string -> HttpResponse.

Definition step (c : Config) (e : Event) : Config :=
  match e with
  | Select eventId =>
      if String.eqb eventId (selectedEventId (view c)) then c
      else
        (* setSelectedEventId, then the effect on [selectedEventId] *)
        fetch_start
          {| view := {| shown := shown (view c);
                        selectedEventId := eventId;
                        isLoading := isLoading (view c);
                        errorMessage := errorMessage (view c);
                        grouped := grouped (view c) |};
             inflight := inflight c |}
  | Refresh =>
      (* the button is disabled while [isLoading] *)
      if isLoading (view c) then c else fetch_start c
  | Resolve n =>
      match nth_error (inflight c) n with
      | Some eventId =>
          {| view := fetch_settle (view c) (server eventId);
             inflight := remove_nth n (inflight c) |}
      | None => c
      end
  end.

Definition run (events : list Event) (c : Config) : Config :=
  fold_left step events c.

(** The component after its first render: the state initialisers,
    then the effect's first run. *)
Definition mount (initialWaitlist : Shown) (initialIsGrouped : bool)
    (initialEventId : option string) : Config :=
  fetch_start
    {| view := {| shown := initialWaitlist;
                  selectedEventId :=
                    match truthy initialEventId with
                    | Some i => i
                    | None => ""
                    end;
                  isLoading := false;
                  errorMessage := None;
                  grouped := initialIsGrouped |};
       inflight := [] |}.

(** The display a response leads to when it is the only one. *)
Definition result_of (eventId : string) : Shown :=
  match parsed (server eventId) with
  | inr (GroupedBody leaderboard) => Groups leaderboard
  | inr (SingleBody _ waitlist _) => Entries waitlist
  | _ => Entries []
  end.

Definition succeeds (response : HttpResponse) : bool :=
  ok response
  && match contentType response with
     | Some ct => mentions_json ct
     | None => false
     end
  && match parsed response with inr _ => true | inl _ => false end.

(** Last-requested-filter-wins, as the specification words it: once
    nothing is in flight, the display is the answer for the filter that
    was requested last, which is the selected one. *)
Definition last_requested_wins (events : list Event) (c : Config) : Prop :=
  let c' := run events c in
  inflight c' = [] ->
  succeeds (server (selectedEventId (view c'))) = true ->
  shown (view c') = result_of (selectedEventId (view c')).
End Run.

End Viewer.

(* ===================================================================== *)
(** * Hourly sales buckets *)
(* ===================================================================== *)

Module Sales.

Local Open Scope Z_scope.

(** Modelled from the spec: the route [GET /api/events/{eventId}/sales]
    that computes the buckets is not among the sources (only the chart
    that renders them is). The definitions follow section 4.3 of the
    specification: sort the timestamps, truncate each to its clock hour,
    count per hour (sparsely, or densely from the first sale's hour to
    the last one's), then pass once for the running total. Timestamps
    are milliseconds since the epoch. *)
Definition HOUR : Z := 3600000.

Definition hourStart (t : Z) : Z := t - t mod HOUR.

Fixpoint insert_time (t : Z) (l : list Z) : list Z :=
  match l with
  | [] => [t]
  | u :: rest => if t <=? u then t :: u :: rest else u :: insert_time t rest
  end.

Fixpoint sort_times (l : list Z) : list Z :=
  match l with
  | [] => []
  | t :: rest => insert_time t (sort_times rest)
  end.

(** Modelled from the spec: one more sale in the bucket of hour [h], the
    bucket being created last when [h] is new (first-seen order). *)
Fixpoint bump (h : Z) (m : list (Z * nat)) : list (Z * nat) :=
  match m with
  | [] => [(h, 1%nat)]
  | (h', n) :: rest =>
      if h =? h' then (h', S n) :: rest else (h', n) :: bump h rest
  end.

(** Modelled from the spec: the sparse bucket sequence. *)
Definition sparse (hours : list Z) : list (Z * nat) :=
  fold_left (fun m h => bump h m) hours [].

(** Modelled from the spec: the dense bucket sequence, one bucket per
    hour from the first sale's hour to the last sale's hour inclusive. *)
Definition dense (hours : list Z) : list (Z * nat) :=
  match hours with
  | [] => []
  | first :: _ =>
      let final := last hours first in
      map (fun i => let h := first + Z.of_nat i * HOUR in
                    (h, count_occ Z.eq_dec hours h))
          (seq 0 (S (Z.to_nat ((final - first) / HOUR))))
  end.

Record SalesBucket : Type := {
  time : Z;
  count : nat;
  cumulative : nat
}.

(** Modelled from the spec: the running-sum pass. *)
Fixpoint running (sofar : nat) (counts : list (Z * nat)) : list SalesBucket :=
  match counts with
  | [] => []
  | (h, n) :: rest =>
      {| time := h; count := n; cumulative := (sofar + n)%nat |}
        :: running (sofar + n)%nat rest
  end.

Inductive Density : Type := Sparse | Dense.

Record SalesResult : Type := {
  data : list SalesBucket;
  totalTickets : nat
}.

(** Modelled from the spec: the whole engine; [totalTickets] is the final
    cumulative value, 0 when there is no bucket. *)
Definition salesBuckets (d : Density) (timestamps : list Z) : SalesResult :=
  let hours := map hourStart (sort_times timestamps) in
  let counts := match d with Sparse => sparse hours | Dense => dense hours end in
  let buckets := running 0 counts in
  {| data := buckets;
     totalTickets := last (map cumulative buckets) 0%nat |}.

End Sales.

(* ===================================================================== *)
(** * Notions used to state the properties *)
(* ===================================================================== *)

(** A row that passed the three guards of the callback: the key it is
    grouped under, the event details stored if the key is new, and the
    entry pushed. *)
Record Valid : Type := {
  v_key : string;
  v_event : EventDetails;
  v_entry : WaitlistEntry
}.

(** The guards of [groupEntry], collected: the row normalizer. *)
Definition validate (entry : JoinedRow) : option Valid :=
  match truthy (r_event_id entry) with
  | None => None
  | Some eventId =>
      match resolveEvents (r_events entry) with
      | None => None
      | Some eventData =>
          match truthy (raw_id eventData) with
          | None => None
          | Some id =>
              Some {| v_key := eventId;
                      v_event := eventOf eventData id;
                      v_entry := entryOf entry |}
          end
      end
  end.

Fixpoint valid_rows (rows : list JoinedRow) : list Valid :=
  match rows with
  | [] => []
  | r :: rest =>
      match validate r with
      | Some v => v :: valid_rows rest
      | None => valid_rows rest
      end
  end.

(** What one surviving row does to its group: the push, then the count. *)
Definition add (w : WaitlistEntry) (g : EventGroup) : EventGroup :=
  increment (push w g).

Definition has_key (k : string) (v : Valid) : bool := String.eqb (v_key v) k.

(** The first row of every key, in input order. *)
Fixpoint first_rows (vs : list Valid) : list Valid :=
  match vs with
  | [] => []
  | v :: rest => v :: filter (fun u => negb (has_key (v_key v) u)) (first_rows rest)
  end.

(** The distinct strings of a list, in order of first occurrence. *)
Fixpoint first_seen (ks : list string) : list string :=
  match ks with
  | [] => []
  | k :: rest => k :: filter (fun k' => negb (String.eqb k' k)) (first_seen rest)
  end.

(** The entries of the surviving rows with key [k], in input order. *)
Definition entries_of (vs : list Valid) (k : string) : list WaitlistEntry :=
  map v_entry (filter (has_key k) vs).

(** The group of the key of [v]: the event details of [v], every entry of
    that key, and their number. *)
Definition group_of (vs : list Valid) (v : Valid) : EventGroup :=
  {| event := v_event v;
     waitlist := entries_of vs (v_key v);
     totalCount := length (entries_of vs (v_key v)) |}.

(** The grouping as a specification: one group per distinct key, in order
    of first occurrence. *)
Definition grouping (vs : list Valid) : JsObject.t EventGroup :=
  map (fun v => (v_key v, group_of vs v)) (first_rows vs).

(** Keys for which a plain object behaves as an insertion-ordered map. *)
Definition own_only (k : string) : Prop := JsObject.inherited k = false.
Definition not_index (k : string) : Prop := JsObject.is_array_index k = false.

(** The shape of an identifier in the database's text form of a UUID:
    36 characters, the ninth a hyphen. *)
Definition uuid_shaped (k : string) : Prop :=
  String.length k = 36 /\ String.get 8 k = Some "-"%char.

Definition well_counted (g : EventGroup) : Prop :=
  totalCount g = length (waitlist g).

(** The leaderboard a response carries, if it carries one. *)
Definition leaderboard_of (r : Response) : list EventGroup :=
  match body r with
  | GroupedBody leaderboard => leaderboard
  | _ => []
  end.

(** A response that is an empty or default result set rather than an
    error. *)
Definition empty_result (r : Response) : bool :=
  match body r with
  | GroupedBody [] => true
  | SingleBody _ [] _ => true
  | _ => false
  end.

(** [NextResponse.json(body, { status })] as the browser's [fetch] sees it. *)
Definition delivered (r : Response) : Viewer.HttpResponse :=
  {| Viewer.ok := ((200 <=? status r) && (status r <=? 299))%nat;
     Viewer.http_status := status r;
     Viewer.statusText := "";
     Viewer.contentType := Some "application/json";
     Viewer.parsed := inr (body r) |}.

(** The effect of one surviving row on the object, read off [groupEntry]:
    an existing group is updated in place, a new key gets a group created
    last, and a key found on the prototype makes the push throw. *)
Definition place (groupedByEvent : JsObject.t EventGroup) (v : Valid)
  : Outcome (JsObject.t EventGroup) :=
  match JsObject.own groupedByEvent (v_key v) with
  | Some _ => Ok (JsObject.modify groupedByEvent (v_key v) (add (v_entry v)))
  | None =>
      if JsObject.inherited (v_key v) then Throw TypeError
      else Ok (groupedByEvent
               ++ [(v_key v, add (v_entry v) (emptyGroup (v_event v)))])
  end.

(** The same for a key that is not inherited. *)
Definition upsert (groupedByEvent : JsObject.t EventGroup) (v : Valid)
  : JsObject.t EventGroup :=
  match JsObject.own groupedByEvent (v_key v) with
  | Some _ => JsObject.modify groupedByEvent (v_key v) (add (v_entry v))
  | None => groupedByEvent ++ [(v_key v, add (v_entry v) (emptyGroup (v_event v)))]
  end.

(** A group that holds at least one entry and counts its entries. *)
Definition populated (g : EventGroup) : Prop :=
  well_counted g /\ 1 <= totalCount g /\ waitlist g <> [].

(* ===================================================================== *)
(** * Sample data *)
(* ===================================================================== *)

Definition sample_event (id : string) (name : string) : RawEvent :=
  {| raw_id := Some id;
     raw_name := Some name;
     raw_capacity := 100%Z;
     raw_reserved := None;
     raw_start_time_date := None;
     raw_venue := Some "Memorial Auditorium" |}.

(** A joined row of the waitlist of event [eventId], the relation encoded
    as an object. *)
Definition sample_row (id email : string) (position : Z) (eventId : string)
  : JoinedRow :=
  {| r_id := id;
     r_email := email;
     r_referral := None;
     r_position := position;
     r_created_at := "2025-01-01T00:00:00Z";
     r_event_id := Some eventId;
     r_events := RelObject (sample_event eventId "Talk") |}.

Definition event_a : string := "0b9f2c1e-5a7d-4c3b-9e21-7f6a5d4c3b2a".
Definition event_b : string := "a1b2c3d4-e5f6-4a7b-8c9d-0e1f2a3b4c5d".

(** Three rows as the query orders them: event id descending, position
    ascending. *)
Definition sample_rows : list JoinedRow :=
  [ sample_row "w1" "ann@example.org" 1 event_b;
    sample_row "w2" "bob@example.org" 2 event_b;
    sample_row "w3" "cyd@example.org" 1 event_a ].

(** Rows whose event ids are spelled as integers. *)
Definition numeric_rows : list JoinedRow :=
  [ sample_row "w1" "ann@example.org" 1 "2";
    sample_row "w2" "bob@example.org" 1 "1" ].

(** A row whose event id is the name of an inherited property. *)
Definition inherited_rows : list JoinedRow :=
  [ sample_row "w1" "ann@example.org" 1 "constructor" ].

(** A client over a database with one roles record and the given joined
    rows. *)
Definition sample_client (rolesOf : string -> option RolesRecord)
    (rows : list JoinedRow) : SupabaseClient :=
  {| roles_single := rolesOf;
     events_single := fun id =>
       if String.eqb id event_a
       then {| data := Some (sample_event event_a "Talk"); error := None |}
       else {| data := None; error := Some "no rows" |};
     waitlist_of_event := fun id =>
       if String.eqb id event_a
       then {| data := Some [ entryOf (sample_row "w3" "cyd@example.org" 1 event_a) ];
               error := None |}
       else {| data := Some []; error := None |};
     waitlist_joined := {| data := Some rows; error := None |} |}.

Definition roles_table (email : string) : option RolesRecord :=
  if String.eqb email "admin@example.org" then Some {| roles := Some "editor,admin" |}
  else if String.eqb email "staff@example.org" then Some {| roles := Some "administrator" |}
  else None.

Definition signed_in (email : string) : GetUserResult :=
  {| user := Some {| user_email := Some email |}; userError := None |}.

Definition signed_out : GetUserResult :=
  {| user := None; userError := Some "Auth session missing!" |}.

(** A stand-in for [isValidUUID] in examples: the shape test. *)
Definition shape_test (s : string) : bool :=
  Nat.eqb (String.length s) 36
  && match String.get 8 s with
     | Some c => Ascii.eqb c "-"%char
     | None => false
     end.

(** The route, called by an admin over the sample rows, as the server
    the viewer talks to. *)
Definition sample_server (eventId : string) : Viewer.HttpResponse :=
  delivered (GET shape_test (signed_in "admin@example.org")
                 (sample_client roles_table sample_rows) (Some eventId)).

(** The viewer of the page, mounted on what the page loaded. *)
Definition sample_viewer : Viewer.Config :=
  Viewer.mount
    (Viewer.Groups
       (initial_waitlist
          (getInitialWaitlist (signed_in "admin@example.org")
                              (sample_client roles_table sample_rows))))
    true None.

(* ===================================================================== *)
(** * The rest of the waitlist page, the layout, the storage helper *)
(* ===================================================================== *)

(** A row of [from("events").select("id, name")]. *)
Record EventOption : Type := {
  o_id : string;
  o_name : option string
}.

(** [getEvents] of the waitlist page and of the tickets page (the same
    text in both). [eventsQuery] is what the admin client's
    [from("events").select("id, name").order(...)] resolves to. *)
Definition getEvents (session : GetUserResult) (client : SupabaseClient)
    (eventsQuery : QueryResult (list EventOption)) : list EventOption :=
  match verifyAdminRequest session client with
  | Unauthorized _ => []
  | Authorized _ _ =>
      match error eventsQuery with
      | Some _ => []
      | None =>
          match data eventsQuery with
          | Some events => events
          | None => []
          end
      end
  end.

(** The props [AdminWaitlistPage] hands to the viewer. *)
Record WaitlistViewerProps : Type := {
  initialWaitlist : list EventGroup;
  initialEvents : list EventOption;
  props_isGrouped : bool
}.

Definition AdminWaitlistPage (session : GetUserResult) (client : SupabaseClient)
    (eventsQuery : QueryResult (list EventOption)) : WaitlistViewerProps :=
  let loaded := getInitialWaitlist session client in
  {| initialWaitlist := initial_waitlist loaded;
     initialEvents := getEvents session client eventsQuery;
     props_isGrouped := isGrouped loaded |}.

(** The value [getInitialTickets] resolves to (the fuller of the two
    versions of the tickets page; the other lacks the last two counts). *)
Record InitialTickets (Ticket : Type) : Type := {
  tickets : list Ticket;
  total : nat;
  scannedCount : nat;
  unscannedCount : nat;
  filteredCount : nat;
  standardCount : nat;
  vipCount : nat
}.
Arguments tickets {Ticket} i.
Arguments total {Ticket} i.
Arguments scannedCount {Ticket} i.
Arguments unscannedCount {Ticket} i.
Arguments filteredCount {Ticket} i.
Arguments standardCount {Ticket} i.
Arguments vipCount {Ticket} i.

Definition getInitialTickets {Ticket : Type} : InitialTickets Ticket :=
  {| tickets := []; total := 0; scannedCount := 0; unscannedCount := 0;
     filteredCount := 0; standardCount := 0; vipCount := 0 |}.

(** The props [AdminTicketsPage] hands to its client component. *)
Definition AdminTicketsPage {Ticket : Type} (session : GetUserResult)
    (client : SupabaseClient) (eventsQuery : QueryResult (list EventOption))
  : InitialTickets Ticket * list EventOption :=
  (getInitialTickets, getEvents session client eventsQuery).

Module WaitlistView.

(** What the viewer's [return] builds below the heading and the filter. *)
Inductive Body : Type :=
| Spinner                                   (* "Loading waitlist..." *)
| GroupCards (groups : list EventGroup)     (* one card per group *)
| EmptyState (message : string)             (* "No waitlist entries" *)
| EntryTable (entries : list WaitlistEntry)
| Miscast.        (* a list read at the type the other view expects *)

Record Screen : Type := {
  groupedView : bool;
  banner : option string;      (* the inline error *)
  body : Body
}.

(** [initialEvents.find((e) => e.id === selectedEventId)] *)
Definition selectedEvent (events : list EventOption) (selectedEventId : string)
  : option EventOption :=
  find (fun e => String.eqb (o_id e) selectedEventId) events.

Definition emptyMessage (events : list EventOption) (selectedEventId : string)
  : string :=
  match truthy (Some selectedEventId) with
  | Some _ =>
      "No waitlist entries for "
      ++ match selectedEvent events selectedEventId with
         | Some e => match truthy (o_name e) with
                     | Some n => n
                     | None => "this event"
                     end
         | None => "this event"
         end
  | None => "No waitlist entries across any events"
  end.

Definition is_empty (w : Viewer.Shown) : bool :=
  match w with
  | Viewer.Groups [] => true
  | Viewer.Entries [] => true
  | _ => false
  end.

(** The two [return]s of the component: the grouped view when
    [isGrouped && waitlist.length > 0], the single-event view otherwise. *)
Definition render (events : list EventOption) (s : Viewer.State) : Screen :=
  if Viewer.grouped s && negb (is_empty (Viewer.shown s)) then
    {| groupedView := true;
       banner := truthy (Viewer.errorMessage s);
       body := if Viewer.isLoading s then Spinner
               else match Viewer.shown s with
                    | Viewer.Groups groups => GroupCards groups
                    | Viewer.Entries _ => Miscast
                    end |}
  else
    {| groupedView := false;
       banner := truthy (Viewer.errorMessage s);
       body := if Viewer.isLoading s then Spinner
               else if is_empty (Viewer.shown s)
                    then EmptyState (emptyMessage events (Viewer.selectedEventId s))
                    else match Viewer.shown s with
                         | Viewer.Entries entries => EntryTable entries
                         | Viewer.Groups _ => Miscast
                         end |}.

(** The flag and the list agree on the kind of the list. *)
Definition coherent (s : Viewer.State) : Prop :=
  match Viewer.shown s with
  | Viewer.Groups (_ :: _) => Viewer.grouped s = true
  | Viewer.Entries (_ :: _) => Viewer.grouped s = false
  | _ => True
  end.

End WaitlistView.

Module Layout.

(** [NavItem] of [AdminLayoutClient]. *)
Record NavItem : Type := {
  href : string;
  label : string;
  icon : string
}.

(** [const isActive = pathname === item.href], in both navigation bars. *)
Definition isActive (pathname : string) (item : NavItem) : bool :=
  String.eqb pathname (href item).

Definition activeItems (pathname : string) (navItems : list NavItem)
  : list NavItem :=
  filter (isActive pathname) navItems.

(** The top padding class of [main]. *)
Definition mainPadding (emailDisabled : bool) : string :=
  if emailDisabled then "pt-[104px]" else "pt-16".

End Layout.

Module Storage.

(** What [storage.from("speakers").createSignedUrl(...)] resolves to. *)
Record SignedUrlResult : Type := {
  signed_data : option (option string);   (* data, and data.signedUrl *)
  signed_error : option string
}.

(** [getSignedImageUrl(imgName, expiresIn = 60)]; [createSignedUrl] is the
    storage call, by image name and expiry. *)
Definition getSignedImageUrl (createSignedUrl : string -> nat -> SignedUrlResult)
    (imgName : option string) (expiresIn : option nat) : option string :=
  match truthy imgName with
  | None => None
  | Some name =>
      let answer := createSignedUrl name (match expiresIn with
                                          | Some n => n
                                          | None => 60
                                          end) in
      match signed_error answer with
      | Some _ => None
      | None =>
          match signed_data answer with
          | Some signedUrl => truthy signedUrl
          | None => None
          end
      end
  end.

End Storage.

(* ===================================================================== *)
(** * The ticket sales chart ([TicketSalesGraph]) *)
(* ===================================================================== *)

Module SalesGraph.

Record SalesDataPoint : Type := {
  time : string;
  count : nat;
  cumulative : nat
}.

Definition MIN_CHART_WIDTH : nat := 600.
Definition WIDTH_PER_DATAPOINT : nat := 50.

(** The fields of the parsed body that [fetchSalesData] reads. *)
Record SalesJson : Type := {
  json_error : option string;
  json_data : option (list SalesDataPoint);
  json_totalTickets : option nat
}.

(** What [fetch] resolves to; [parsed] is [response.json()], a body or
    the message of the error it rejects with. *)
Record HttpResponse : Type := {
  ok : bool;
  parsed : string + SalesJson
}.

Record State : Type := {
  data : list SalesDataPoint;
  isLoading : bool;
  error : option string;
  totalTickets : nat
}.

(** The [useState] initialisers. *)
Definition initial : State :=
  {| data := []; isLoading := true; error := None; totalTickets := 0 |}.

(** [setIsLoading(true); setError(null);] *)
Definition fetch_start (s : State) : State :=
  {| data := data s; isLoading := true; error := None;
     totalTickets := totalTickets s |}.

Definition fail (s : State) (msg : string) : State :=
  {| data := data s; isLoading := false; error := Some msg;
     totalTickets := totalTickets s |}.

(** [fetchSalesData] after [await fetch(...)], with its [catch] and
    [finally]. Both branches await [response.json()] without a guard of
    their own, so its rejection reaches the [catch]. *)
Definition fetch_settle (s : State) (response : HttpResponse) : State :=
  match parsed response with
  | inl msg => fail s msg
  | inr result =>
      if negb (ok response) then
        fail s (match truthy (json_error result) with
                | Some m => m
                | None => "Failed to fetch sales data"
                end)
      else
        {| data := match json_data result with
                   | Some points => points
                   | None => []
                   end;
           isLoading := false;
           error := error s;
           totalTickets := match json_totalTickets result with
                           | Some n => n
                           | None => 0
                           end |}
  end.

(** The component after its first render and the effect's first run:
    [if (eventId) fetchSalesData()]. The boolean tells whether a request
    is in flight. *)
Definition mount (eventId : string) : State * bool :=
  match truthy (Some eventId) with
  | Some _ => (fetch_start initial, true)
  | None => (initial, false)
  end.

(** [String.prototype.padStart]: the first [n] characters of the pad
    string repeated, [cur] being what is left of the current copy. *)
Fixpoint fill (pad cur : string) (n : nat) : string :=
  match n with
  | O => ""
  | S m =>
      match cur with
      | String c rest => String c (fill pad rest m)
      | EmptyString =>
          match pad with
          | String c rest => String c (fill pad rest m)
          | EmptyString => ""
          end
      end
  end.

Definition padStart (s : string) (targetLength : nat) (padString : string)
  : string :=
  if (targetLength <=? String.length s)%nat then s
  else if String.eqb padString "" then s
  else fill padString padString (targetLength - String.length s)%nat ++ s.

(** What the chart reads off [new Date(point.time)]. *)
Record DateParts : Type := {
  month : string;      (* toLocaleDateString("en-US", { month: "short" }) *)
  day : nat;           (* getDate() *)
  hours : nat;         (* getHours() *)
  minutes : nat        (* getMinutes() *)
}.

Definition clock (hours minutes : nat) : string :=
  padStart (Viewer.decimal hours) 2 "0" ++ ":"
  ++ padStart (Viewer.decimal minutes) 2 "0".

(** [`${month} ${day}, ${hh}:${mm}`] *)
Definition formatLabel (d : DateParts) : string :=
  month d ++ " " ++ Viewer.decimal (day d) ++ ", " ++ clock (hours d) (minutes d).

Record ChartPoint : Type := {
  chart_time : string;          (* time: label *)
  timestamp : string;
  soldThisHour : nat;           (* "Tickets Sold This Hour" *)
  totalSold : nat               (* "Total Tickets" *)
}.

Section Chart.
(** The browser's reading of a timestamp in its own time zone. *)
Variable dateParts : string -> DateParts.

Definition chartData (points : list SalesDataPoint) : list ChartPoint :=
  map (fun point =>
         {| chart_time := formatLabel (dateParts (time point));
            timestamp := time point;
            soldThisHour := count point;
            totalSold := cumulative point |})
      points.

Definition chartWidth (points : list SalesDataPoint) : nat :=
  Nat.max MIN_CHART_WIDTH (length (chartData points) * WIDTH_PER_DATAPOINT)%nat.

(** The four [return]s of the component. *)
Inductive Screen : Type :=
| Loading                                  (* "Loading sales data..." *)
| Failed (message : string)
| NoData                                   (* "No ticket sales data available" *)
| Chart (points : list ChartPoint) (width : nat) (total : nat).

Definition render (s : State) : Screen :=
  if isLoading s then Loading
  else match truthy (error s) with
       | Some message => Failed message
       | None =>
           match data s with
           | [] => NoData
           | _ :: _ => Chart (chartData (data s)) (chartWidth (data s))
                             (totalTickets s)
           end
       end.
End Chart.

End SalesGraph.

(* ===================================================================== *)
(** * Notions used to state the further properties *)
(* ===================================================================== *)

(** Every message the route writes into an error body. *)
Definition route_messages : list string :=
  [ "Not authenticated"; "Not authorized"; "Invalid event ID format";
    "Event not found"; "Failed to fetch waitlist"; "Internal server error" ].

(** Two query results the code cannot tell apart: both failed, or both
    succeeded with the same data. *)
Definition same_outcome {A : Type} (q1 q2 : QueryResult A) : Prop :=
  match error q1, error q2 with
  | None, None => data q1 = data q2
  | Some _, Some _ => True
  | _, _ => False
  end.

(** Two clients the route cannot tell apart. *)
Definition same_answers (c1 c2 : SupabaseClient) : Prop :=
  (forall email, roles_single c1 email = roles_single c2 email) /\
  (forall id, same_outcome (events_single c1 id) (events_single c2 id)) /\
  (forall id, same_outcome (waitlist_of_event c1 id) (waitlist_of_event c2 id)) /\
  same_outcome (waitlist_joined c1) (waitlist_joined c2).

(** Whether a row passes the guards of the callback. *)
Definition survives (entry : JoinedRow) : bool :=
  match validate entry with
  | Some _ => true
  | None => false
  end.

(** The route as the server of the viewer, for a given session and
    database. *)
Definition route_server (isValidUUID : string -> bool) (session : GetUserResult)
    (client : SupabaseClient) (eventId : string) : Viewer.HttpResponse :=
  delivered (GET isValidUUID session client (Some eventId)).

(** The viewer as the page mounts it, before any request resolves. *)
Definition mounted (props : WaitlistViewerProps) : Viewer.Config :=
  Viewer.mount (Viewer.Groups (initialWaitlist props)) (props_isGrouped props) None.

(** The sample client with other texts in its failed queries. *)
Definition reworded_client : SupabaseClient :=
  {| roles_single := roles_table;
     events_single := fun id =>
       if String.eqb id event_a
       then {| data := Some (sample_event event_a "Talk"); error := None |}
       else {| data := Some (sample_event id "Ghost");
               error := Some "PGRST116: JSON object requested, multiple rows" |};
     waitlist_of_event := waitlist_of_event (sample_client roles_table sample_rows);
     waitlist_joined := {| data := Some sample_rows; error := None |} |}.

(** A table of counts tallies a list of hours when its keys strictly
    ascend, the count of each key is the number of occurrences of the key
    in the list, and every hour of the list has a key. *)
Definition tallies (counts : list (Z * nat)) (hours : list Z) : Prop :=
  StronglySorted Z.lt (map fst counts) /\
  (forall k n, In (k, n) counts -> n = count_occ Z.eq_dec hours k) /\
  (forall h, In h hours -> In h (map fst counts)).

(* ===================================================================== *)
(** * Properties of plain objects *)
(* ===================================================================== *)

Section ObjectFacts.
Context {V : Type}.
Implicit Types (o : JsObject.t V) (k : string) (f : V -> V).

Lemma own_none_not_in o k :
  JsObject.own o k = None <-> ~ In k (map fst o).
Proof.
  induction o as [|[k' v] o IH]; simpl.
  - tauto.
  - destruct (String.eqb_spec k k') as [->|Hne].
    + split; [discriminate | intros H; exfalso; apply H; now left].
    + rewrite IH. split.
      * intros H [Heq|Hin]; [congruence | contradiction].
      * intros H Hin. apply H. now right.
Qed.

Lemma own_app_new o k v :
  JsObject.own o k = None -> JsObject.own (o ++ [(k, v)]) k = Some v.
Proof.
  induction o as [|[k' v'] o IH]; simpl; intros H.
  - now rewrite String.eqb_refl.
  - destruct (String.eqb k k'); [discriminate | auto].
Qed.

Lemma modify_app_new o k v f :
  JsObject.own o k = None ->
  JsObject.modify (o ++ [(k, v)]) k f = o ++ [(k, f v)].
Proof.
  induction o as [|[k' v'] o IH]; simpl; intros H.
  - now rewrite String.eqb_refl.
  - destruct (String.eqb k k'); [discriminate | now rewrite IH].
Qed.

Lemma own_modify o k f :
  JsObject.own (JsObject.modify o k f) k = option_map f (JsObject.own o k).
Proof.
  induction o as [|[k' v'] o IH]; simpl; [reflexivity|].
  destruct (String.eqb k k') eqn:E; simpl; rewrite E; auto.
Qed.

Lemma modify_modify o k f g :
  JsObject.modify (JsObject.modify o k f) k g
  = JsObject.modify o k (fun v => g (f v)).
Proof.
  induction o as [|[k' v'] o IH]; simpl; [reflexivity|].
  destruct (String.eqb k k') eqn:E; simpl; rewrite E; [reflexivity|].
  now rewrite IH.
Qed.

Lemma modify_keys o k f :
  map fst (JsObject.modify o k f) = map fst o.
Proof.
  induction o as [|[k' v'] o IH]; simpl; [reflexivity|].
  destruct (String.eqb k k'); simpl; [reflexivity | now rewrite IH].
Qed.

(** Updating a property touches the one value stored under the key. *)
Lemma modify_In o k f kv :
  In kv (JsObject.modify o k f) ->
  In kv o \/ exists v, In (k, v) o /\ kv = (k, f v).
Proof.
  induction o as [|[k' v'] o IH]; simpl; [tauto|].
  destruct (String.eqb_spec k k') as [->|Hne]; simpl.
  - intros [<-|Hin]; [right; exists v'; auto | auto].
  - intros [<-|Hin]; [auto|].
    destruct (IH Hin) as [H|[v [H1 H2]]]; [auto|].
    right. exists v. auto.
Qed.

(** With unique keys, an update is a map over the properties. *)
Lemma modify_as_map o k f :
  NoDup (map fst o) ->
  JsObject.modify o k f
  = map (fun kv => if String.eqb k (fst kv) then (fst kv, f (snd kv)) else kv) o.
Proof.
  induction o as [|[k' v'] o IH]; simpl; [reflexivity|].
  intros Hnd. inversion Hnd as [|? ? Hnotin Hnd']; subst.
  destruct (String.eqb_spec k k') as [->|Hne].
  - f_equal. clear IH Hnd Hnd'.
    induction o as [|[k2 v2] o IH]; simpl; [reflexivity|].
    simpl in Hnotin.
    destruct (String.eqb_spec k' k2) as [->|Hne]; [tauto|].
    f_equal. apply IH. tauto.
  - f_equal. now apply IH.
Qed.

(** *** [Object.values] *)

Lemma insert_index_perm (x : N * V) l :
  Permutation (JsObject.insert_index x l) (x :: l).
Proof.
  induction l as [|y l IH]; simpl; [reflexivity|].
  destruct (fst x <=? fst y)%N; [reflexivity|].
  rewrite IH. apply perm_swap.
Qed.

Lemma sort_index_perm (l : list (N * V)) :
  Permutation (JsObject.sort_index l) l.
Proof.
  induction l as [|x l IH]; simpl; [reflexivity|].
  rewrite insert_index_perm. now constructor.
Qed.

Lemma insert_index_sorted (x : N * V) l :
  Sorted (fun a b => (fst a <= fst b)%N) l ->
  Sorted (fun a b => (fst a <= fst b)%N) (JsObject.insert_index x l).
Proof.
  induction l as [|y l IH]; simpl; intros Hs.
  - repeat constructor.
  - destruct (N.leb_spec (fst x) (fst y)).
    + constructor; [exact Hs | now constructor].
    + inversion Hs as [|? ? Hl Hhd]; subst.
      constructor; [now apply IH|].
      destruct l as [|z l]; simpl.
      * constructor. lia.
      * destruct (N.leb_spec (fst x) (fst z)); constructor; [lia|].
        now inversion Hhd.
Qed.

(** The array-index part of [Object.values] is in ascending order. *)
Lemma sort_index_sorted (l : list (N * V)) :
  Sorted (fun a b => (fst a <= fst b)%N) (JsObject.sort_index l).
Proof.
  induction l as [|x l IH]; simpl; [constructor | now apply insert_index_sorted].
Qed.

Lemma values_split_perm o :
  Permutation (map snd (JsObject.index_entries o)
               ++ map snd (JsObject.string_entries o))
              (map snd o).
Proof.
  unfold JsObject.string_entries, JsObject.is_array_index.
  induction o as [|[k v] o IH]; simpl; [reflexivity|].
  destruct (JsObject.array_index k); simpl.
  - now constructor.
  - rewrite <- IH. symmetry. apply Permutation_middle.
Qed.

(** [Object.values] lists every property value exactly once. *)
Lemma values_perm o : Permutation (JsObject.values o) (map snd o).
Proof.
  unfold JsObject.values.
  rewrite (Permutation_map snd (sort_index_perm (JsObject.index_entries o))).
  apply values_split_perm.
Qed.

Lemma index_entries_none o :
  Forall not_index (map fst o) -> JsObject.index_entries o = [].
Proof.
  unfold not_index, JsObject.is_array_index.
  induction o as [|[k v] o IH]; simpl; [reflexivity|].
  intros H. inversion H as [|? ? Hk Ho]; subst.
  destruct (JsObject.array_index k); [discriminate | auto].
Qed.

Lemma string_entries_all o :
  Forall not_index (map fst o) -> JsObject.string_entries o = o.
Proof.
  unfold not_index, JsObject.string_entries.
  induction o as [|[k v] o IH]; simpl; [reflexivity|].
  intros H. inversion H as [|? ? Hk Ho]; subst.
  rewrite Hk. simpl. f_equal. auto.
Qed.

(** Without array-index keys, [Object.values] is creation order. *)
Lemma values_creation_order o :
  Forall not_index (map fst o) -> JsObject.values o = map snd o.
Proof.
  intros H. unfold JsObject.values.
  now rewrite index_entries_none, string_entries_all.
Qed.
End ObjectFacts.

(* ===================================================================== *)
(** * The grouping loop *)
(* ===================================================================== *)

(** The callback drops a row that fails a guard and places one that
    passes all three. *)
Lemma groupEntry_validate acc entry :
  groupEntry acc entry
  = match validate entry with
    | None => Ok acc
    | Some v => place acc v
    end.
Proof.
  unfold groupEntry, validate.
  destruct (truthy (r_event_id entry)) as [eventId|]; [|reflexivity].
  destruct (resolveEvents (r_events entry)) as [eventData|]; [|reflexivity].
  destruct (truthy (raw_id eventData)) as [id|]; [|reflexivity].
  unfold place, pushOn, incrementOn, JsObject.get, JsObject.set; simpl.
  destruct (JsObject.own acc eventId) as [g|] eqn:Hown.
  - rewrite Hown. simpl.
    rewrite own_modify, Hown. simpl.
    now rewrite modify_modify.
  - destruct (JsObject.inherited eventId) eqn:Hinh.
    + rewrite Hown. reflexivity.
    + rewrite (own_app_new _ _ _ Hown). simpl.
      rewrite (modify_app_new _ _ _ _ Hown).
      rewrite (own_app_new _ _ _ Hown). simpl.
      now rewrite (modify_app_new _ _ _ _ Hown).
Qed.

(** The loop only sees the rows that survive. *)
Lemma forEach_valid_rows rows acc :
  forEach groupEntry rows acc = forEach place (valid_rows rows) acc.
Proof.
  revert acc. induction rows as [|r rows IH]; intros acc; simpl; [reflexivity|].
  rewrite groupEntry_validate.
  destruct (validate r) as [v|]; simpl; [|apply IH].
  destruct (place acc v); simpl; [apply IH | reflexivity].
Qed.

Lemma place_upsert acc v :
  own_only (v_key v) -> place acc v = Ok (upsert acc v).
Proof.
  unfold place, upsert, own_only. intros ->.
  now destruct (JsObject.own acc (v_key v)).
Qed.

Lemma forEach_upsert vs acc :
  Forall (fun v => own_only (v_key v)) vs ->
  forEach place vs acc = Ok (fold_left upsert vs acc).
Proof.
  revert acc. induction vs as [|v vs IH]; intros acc H; simpl; [reflexivity|].
  inversion H as [|? ? Hv Hvs]; subst.
  rewrite (place_upsert _ _ Hv). simpl. now apply IH.
Qed.

(** *** Invariants of the loop, whatever the keys *)

Lemma add_populated w g : well_counted g -> populated (add w g).
Proof.
  unfold populated, well_counted, add, increment, push. simpl. intros ->.
  rewrite length_app. simpl. repeat split; try lia.
  now destruct (waitlist g).
Qed.

Lemma place_populated acc v acc' :
  Forall (fun kg => populated (snd kg)) acc ->
  place acc v = Ok acc' ->
  Forall (fun kg => populated (snd kg)) acc'.
Proof.
  unfold place. intros Hacc.
  destruct (JsObject.own acc (v_key v)) eqn:Hown.
  - intros [= <-]. apply Forall_forall. intros kg Hin.
    rewrite Forall_forall in Hacc.
    destruct (modify_In _ _ _ _ Hin) as [H|[g [H1 ->]]]; [auto|].
    simpl. apply add_populated. apply (Hacc _ H1).
  - destruct (JsObject.inherited (v_key v)); [discriminate|].
    intros [= <-]. apply Forall_app. split; [exact Hacc|].
    constructor; [|constructor]. simpl. now apply add_populated.
Qed.

Lemma forEach_populated vs acc acc' :
  Forall (fun kg => populated (snd kg)) acc ->
  forEach place vs acc = Ok acc' ->
  Forall (fun kg => populated (snd kg)) acc'.
Proof.
  revert acc. induction vs as [|v vs IH]; intros acc Hacc; simpl.
  - now intros [= <-].
  - destruct (place acc v) as [acc1|] eqn:E; simpl; [|discriminate].
    apply IH. eapply place_populated; eauto.
Qed.

(** Every group the loop produces is populated. *)
Lemma groupByEvent_populated waitlistEntries groupedByEvent :
  groupByEvent waitlistEntries = Ok groupedByEvent ->
  Forall populated (JsObject.values groupedByEvent).
Proof.
  intros H.
  assert (Hall : Forall (fun kg => populated (snd kg)) groupedByEvent).
  { destruct waitlistEntries as [rows|]; simpl in H.
    - rewrite forEach_valid_rows in H.
      eapply forEach_populated; [|exact H]. constructor.
    - injection H as <-. constructor. }
  apply Forall_forall. intros g Hin.
  apply (Permutation_in _ (values_perm groupedByEvent)) in Hin.
  apply in_map_iff in Hin. destruct Hin as [kg [<- Hkg]].
  rewrite Forall_forall in Hall. now apply Hall.
Qed.

(** *** The loop computes the grouping *)

Lemma first_rows_snoc vs v :
  first_rows (vs ++ [v])
  = if existsb (has_key (v_key v)) vs then first_rows vs else first_rows vs ++ [v].
Proof.
  induction vs as [|u vs IH]; simpl; [reflexivity|].
  rewrite IH. unfold has_key.
  destruct (String.eqb_spec (v_key u) (v_key v)) as [E|E]; simpl.
  - destruct (existsb (fun w => v_key w =? v_key v) vs); [reflexivity|].
    rewrite filter_app. simpl.
    rewrite E, String.eqb_refl. simpl. now rewrite app_nil_r.
  - destruct (existsb (fun w => v_key w =? v_key v) vs); [reflexivity|].
    rewrite filter_app. simpl.
    destruct (String.eqb_spec (v_key v) (v_key u)); [congruence | reflexivity].
Qed.

Lemma entries_of_snoc vs v k :
  entries_of (vs ++ [v]) k
  = entries_of vs k ++ (if has_key k v then [v_entry v] else []).
Proof.
  unfold entries_of. rewrite filter_app, map_app. simpl.
  now destruct (has_key k v).
Qed.

Lemma first_rows_keys vs k :
  In k (map v_key (first_rows vs)) <-> In k (map v_key vs).
Proof.
  induction vs as [|u vs IH]; simpl; [tauto|].
  rewrite <- IH. rewrite !in_map_iff. split.
  - intros [E|[x [Hx Hin]]]; [auto|].
    apply filter_In in Hin. right. exists x. tauto.
  - intros [E|[x [Hx Hin]]]; [auto|].
    destruct (String.eqb_spec (v_key x) (v_key u)) as [E|E].
    + left. congruence.
    + right. exists x. split; [exact Hx|].
      apply filter_In. split; [exact Hin|].
      unfold has_key. now destruct (String.eqb_spec (v_key x) (v_key u)).
Qed.

Lemma first_rows_NoDup vs : NoDup (map v_key (first_rows vs)).
Proof.
  induction vs as [|u vs IH]; simpl; constructor.
  - rewrite in_map_iff. intros [x [Hx Hin]].
    apply filter_In in Hin. destruct Hin as [_ Hneg].
    unfold has_key in Hneg. rewrite Hx, String.eqb_refl in Hneg. discriminate.
  - induction (first_rows vs) as [|x l IHl]; simpl; [constructor|].
    inversion IH as [|? ? Hnotin Hnd]; subst.
    destruct (negb (has_key (v_key u) x)); simpl; [|auto].
    constructor; [|auto].
    rewrite in_map_iff. intros [y [Hy Hin]]. apply Hnotin.
    apply filter_In in Hin. apply in_map_iff. exists y. tauto.
Qed.

Lemma grouping_keys vs : map fst (grouping vs) = map v_key (first_rows vs).
Proof. unfold grouping. rewrite map_map. reflexivity. Qed.

Lemma existsb_has_key vs k :
  existsb (has_key k) vs = true <-> In k (map v_key vs).
Proof.
  rewrite existsb_exists, in_map_iff. unfold has_key.
  split; intros [x H]; exists x.
  - destruct H as [H1 H2]. apply String.eqb_eq in H2. auto.
  - destruct H as [H1 H2]. rewrite String.eqb_eq. auto.
Qed.

Lemma grouping_own vs k :
  JsObject.own (grouping vs) k = None <-> existsb (has_key k) vs = false.
Proof.
  rewrite own_none_not_in, grouping_keys, first_rows_keys.
  rewrite <- existsb_has_key. now destruct (existsb (has_key k) vs).
Qed.

Lemma entries_of_absent vs k :
  existsb (has_key k) vs = false -> entries_of vs k = [].
Proof.
  unfold entries_of. induction vs as [|u vs IH]; simpl; [reflexivity|].
  destruct (has_key k u); simpl; [discriminate | auto].
Qed.

(** Placing one more row on the grouping of [vs] gives the grouping of
    [vs] followed by that row. *)
Lemma upsert_grouping vs v :
  upsert (grouping vs) v = grouping (vs ++ [v]).
Proof.
  unfold upsert.
  destruct (JsObject.own (grouping vs) (v_key v)) eqn:Hown.
  - assert (Hex : existsb (has_key (v_key v)) vs = true).
    { destruct (existsb (has_key (v_key v)) vs) eqn:E; [reflexivity|].
      apply grouping_own in E. congruence. }
    rewrite modify_as_map by (rewrite grouping_keys; apply first_rows_NoDup).
    unfold grouping. rewrite first_rows_snoc, Hex, map_map.
    apply map_ext. intros u. simpl.
    unfold group_of. rewrite entries_of_snoc. unfold has_key at 1 2.
    destruct (String.eqb_spec (v_key v) (v_key u)) as [E|E].
    + unfold add, increment, push. simpl.
      rewrite length_app. simpl. now rewrite Nat.add_1_r.
    + now rewrite app_nil_r.
  - assert (Hex : existsb (has_key (v_key v)) vs = false)
      by now apply grouping_own.
    unfold grouping. rewrite first_rows_snoc, Hex, map_app. simpl.
    f_equal.
    + apply map_ext_in. intros u Hu. f_equal.
      unfold group_of. rewrite entries_of_snoc. unfold has_key at 1 2.
      destruct (String.eqb_spec (v_key v) (v_key u)) as [E|E];
        [|now rewrite app_nil_r].
      exfalso.
      assert (Hin : In (v_key v) (map v_key vs)).
      { apply first_rows_keys. rewrite E. now apply in_map. }
      apply existsb_has_key in Hin. congruence.
    + unfold group_of. rewrite entries_of_snoc.
      rewrite (entries_of_absent _ _ Hex). unfold has_key.
      now rewrite String.eqb_refl.
Qed.

Lemma fold_upsert_grouping vs : fold_left upsert vs [] = grouping vs.
Proof.
  induction vs as [|v vs IH] using rev_ind; [reflexivity|].
  now rewrite fold_left_app, IH, <- upsert_grouping.
Qed.

(** When no surviving row has an inherited key, the loop ends normally
    with the grouping of the surviving rows. *)
Lemma groupByEvent_grouping rows :
  Forall (fun v => own_only (v_key v)) (valid_rows rows) ->
  groupByEvent (Some rows) = Ok (grouping (valid_rows rows)).
Proof.
  intros H. simpl. rewrite forEach_valid_rows.
  unfold JsObject.empty.
  now rewrite (forEach_upsert _ _ H), fold_upsert_grouping.
Qed.

(** *** The groups partition the surviving rows *)

Lemma flat_map_nil {A B : Type} (l : list A) :
  flat_map (fun _ : A => @nil B) l = [].
Proof. induction l; simpl; auto. Qed.

Lemma flat_map_pointwise_app {A B : Type} (f g : A -> list B) (l : list A) :
  Permutation (flat_map (fun x => f x ++ g x) l) (flat_map f l ++ flat_map g l).
Proof.
  induction l as [|x l IH]; simpl; [reflexivity|].
  rewrite IH, <- !app_assoc. apply Permutation_app_head.
  rewrite !app_assoc. apply Permutation_app_tail. apply Permutation_app_comm.
Qed.

Lemma flat_map_single_hit (a : Valid) (ks : list string) :
  NoDup ks -> In (v_key a) ks ->
  flat_map (fun k => if has_key k a then [v_entry a] else []) ks = [v_entry a].
Proof.
  unfold has_key.
  induction ks as [|k ks IH]; simpl; [tauto|].
  intros Hnd Hin. inversion Hnd as [|? ? Hnotin Hnd']; subst.
  destruct (String.eqb_spec (v_key a) k) as [E|E].
  - subst k. simpl. f_equal.
    clear IH Hnd Hnd' Hin. induction ks as [|k ks IH]; simpl; [reflexivity|].
    simpl in Hnotin.
    destruct (String.eqb_spec (v_key a) k) as [E|E];
      [exfalso; apply Hnotin; left; now symmetry|].
    simpl. apply IH. tauto.
  - simpl. apply IH; [exact Hnd'|]. destruct Hin; [congruence | assumption].
Qed.

(** Filtering by each key of a duplicate-free list that covers the keys
    rearranges the rows, and loses or repeats none. *)
Lemma entries_partition (vs : list Valid) (ks : list string) :
  NoDup ks ->
  (forall v, In v vs -> In (v_key v) ks) ->
  Permutation (flat_map (entries_of vs) ks) (map v_entry vs).
Proof.
  intros Hnd. unfold entries_of.
  induction vs as [|a vs IH]; intros Hcover; simpl.
  - now rewrite flat_map_nil.
  - rewrite (flat_map_ext _
       (fun k => (if has_key k a then [v_entry a] else [])
                 ++ map v_entry (filter (has_key k) vs))).
    + rewrite flat_map_pointwise_app.
      rewrite (flat_map_single_hit a ks Hnd) by (apply Hcover; now left).
      simpl. constructor. apply IH. intros v Hv. apply Hcover. now right.
    + intros k. now destruct (has_key k a).
Qed.

Lemma grouping_waitlists vs :
  flat_map waitlist (map snd (grouping vs))
  = flat_map (entries_of vs) (map v_key (first_rows vs)).
Proof.
  unfold grouping. rewrite !flat_map_concat_map, !map_map. reflexivity.
Qed.

Lemma grouping_partition vs :
  Permutation (flat_map waitlist (map snd (grouping vs))) (map v_entry vs).
Proof.
  rewrite grouping_waitlists. apply entries_partition.
  - apply first_rows_NoDup.
  - intros v Hv. apply first_rows_keys. now apply in_map.
Qed.

Lemma grouping_In vs k g :
  In (k, g) (grouping vs) ->
  waitlist g = entries_of vs k /\ totalCount g = length (entries_of vs k).
Proof.
  unfold grouping. rewrite in_map_iff. intros [u [[= <- <-] _]]. auto.
Qed.

(** Every row is in the waitlist of the group of its key. *)
Lemma grouping_holds vs v :
  In v vs ->
  exists g, In (v_key v, g) (grouping vs) /\ In (v_entry v) (waitlist g).
Proof.
  intros Hv.
  assert (Hk : In (v_key v) (map v_key (first_rows vs)))
    by (apply first_rows_keys; now apply in_map).
  apply in_map_iff in Hk. destruct Hk as [u [Hu Hin]].
  exists (group_of vs u). split.
  - rewrite <- Hu. unfold grouping.
    apply in_map_iff. exists u. auto.
  - unfold group_of, entries_of. simpl. rewrite Hu.
    apply in_map. apply filter_In. split; [exact Hv|].
    unfold has_key. apply String.eqb_refl.
Qed.

Lemma total_is_flat_length (gs : list EventGroup) :
  Forall well_counted gs ->
  list_sum (map totalCount gs) = length (flat_map waitlist gs).
Proof.
  induction 1 as [|g gs Hg _ IH]; simpl; [reflexivity|].
  rewrite length_app, IH. now rewrite Hg.
Qed.

(** *** First-seen order *)

Lemma first_rows_first_seen vs :
  map v_key (first_rows vs) = first_seen (map v_key vs).
Proof.
  induction vs as [|u vs IH]; simpl; [reflexivity|].
  f_equal. rewrite <- IH. unfold has_key. clear IH.
  induction (first_rows vs) as [|x l IHl]; simpl; [reflexivity|].
  destruct (v_key x =? v_key u); simpl; now rewrite IHl.
Qed.

Lemma first_seen_In ks k : In k (first_seen ks) <-> In k ks.
Proof.
  induction ks as [|a ks IH]; simpl; [tauto|].
  rewrite filter_In, IH. split.
  - tauto.
  - intros [E|Hin]; [auto|].
    destruct (String.eqb_spec k a) as [->|Hne]; [auto|].
    right. split; [exact Hin|].
    now destruct (String.eqb_spec k a).
Qed.

Lemma first_seen_NoDup ks : NoDup (first_seen ks).
Proof.
  induction ks as [|a ks IH]; simpl; constructor.
  - rewrite filter_In. intros [_ H]. now rewrite String.eqb_refl in H.
  - now apply NoDup_filter.
Qed.

(** *** Identifiers shaped like UUIDs are ordinary keys *)

Lemma parse_digits_all_digits s : forall acc n i c,
  JsObject.parse_digits acc s = Some n ->
  String.get i s = Some c ->
  JsObject.digit_of c <> None.
Proof.
  induction s as [|a s IH]; intros acc n i c Hp Hg; simpl in *; [discriminate|].
  destruct (JsObject.digit_of a) as [d|] eqn:Ed; [|discriminate].
  destruct i as [|i].
  - injection Hg as <-. congruence.
  - eapply IH; eauto.
Qed.

Lemma uuid_shaped_not_index k : uuid_shaped k -> not_index k.
Proof.
  intros [_ Hget]. unfold not_index, JsObject.is_array_index, JsObject.array_index.
  destruct k as [|c rest]; [reflexivity|].
  destruct (Ascii.eqb c "0" && negb (rest =? "")); [reflexivity|].
  destruct (JsObject.parse_digits 0 (String c rest)) as [n|] eqn:Hp; [|reflexivity].
  exfalso. now apply (parse_digits_all_digits _ _ _ _ _ Hp Hget).
Qed.

Lemma uuid_shaped_own_only k : uuid_shaped k -> own_only k.
Proof.
  intros [Hlen _]. unfold own_only, JsObject.inherited, JsObject.prototype_keys.
  simpl.
  repeat match goal with
  | |- context [String.eqb k ?s] =>
      destruct (String.eqb_spec k s) as [E|_];
        [rewrite E in Hlen; simpl in Hlen; discriminate|]
  end.
  reflexivity.
Qed.

(** *** From the loop to the two handlers *)

(** Whatever holds of every group of every normally ended loop holds of
    the leaderboard the route returns and of the list the page starts
    with: both are [Object.values] of such a loop, or empty. *)
Lemma handlers_return_loop_groups (P : EventGroup -> Prop) :
  (forall waitlistEntries groupedByEvent,
      groupByEvent waitlistEntries = Ok groupedByEvent ->
      Forall P (JsObject.values groupedByEvent)) ->
  forall isValidUUID session client eventIdParam,
    Forall P (leaderboard_of (GET isValidUUID session client eventIdParam)) /\
    Forall P (initial_waitlist (getInitialWaitlist session client)).
Proof.
  intros HP isValidUUID session client eventIdParam.
  unfold GET, getInitialWaitlist, leaderboard_of.
  destruct (verifyAdminRequest session client) as [err|email adminClient];
    simpl; [split; constructor|].
  split.
  - destruct (truthy eventIdParam) as [eventId|].
    + destruct (negb (isValidUUID eventId)); simpl; [constructor|].
      destruct (error (events_single adminClient eventId)); simpl; [constructor|].
      destruct (data (events_single adminClient eventId)); simpl; [|constructor].
      destruct (error (waitlist_of_event adminClient eventId)); simpl; [constructor|].
      destruct (data (waitlist_of_event adminClient eventId)); simpl; constructor.
    + destruct (error (waitlist_joined adminClient)); simpl; [constructor|].
      destruct (groupByEvent (data (waitlist_joined adminClient))) eqn:E; simpl;
        [eapply HP; eauto | constructor].
  - destruct (error (waitlist_joined adminClient)); simpl; [constructor|].
    destruct (groupByEvent (data (waitlist_joined adminClient))) eqn:E; simpl;
      [eapply HP; eauto | constructor].
Qed.

(* ===================================================================== *)
(** * Waitlist grouping: the claims *)
(* ===================================================================== *)

(** Event ids in the text form of a UUID are neither names inherited from
    [Object.prototype] nor array indices. *)
Lemma uuid_keys_are_plain (vs : list Valid) :
  Forall (fun v => uuid_shaped (v_key v)) vs ->
  Forall (fun v => own_only (v_key v) /\ not_index (v_key v)) vs.
Proof.
  intros H. eapply Forall_impl; [|exact H].
  intros v Hv. split; [now apply uuid_shaped_own_only | now apply uuid_shaped_not_index].
Qed.

(** The partition, for keys that are own properties whenever they are
    found in the accumulator. *)
Lemma groups_partition_own_keys :
  forall rows : list JoinedRow,
    Forall (fun v => own_only (v_key v)) (valid_rows rows) ->
    exists groupedByEvent,
      groupByEvent (Some rows) = Ok groupedByEvent /\
      NoDup (map fst groupedByEvent) /\
      (forall v, In v (valid_rows rows) ->
                 exists g, In (v_key v, g) groupedByEvent /\
                           In (v_entry v) (waitlist g)) /\
      (forall k g, In (k, g) groupedByEvent ->
                   waitlist g = entries_of (valid_rows rows) k) /\
      Permutation (flat_map waitlist (JsObject.values groupedByEvent))
                  (map v_entry (valid_rows rows)) /\
      list_sum (map totalCount (JsObject.values groupedByEvent))
      = length (valid_rows rows).
Proof.
  intros rows Hkeys.
  pose proof (groupByEvent_grouping rows Hkeys) as Hrun.
  exists (grouping (valid_rows rows)).
  assert (Hperm : Permutation
            (flat_map waitlist (JsObject.values (grouping (valid_rows rows))))
            (map v_entry (valid_rows rows))).
  { rewrite (Permutation_flat_map waitlist (values_perm _)).
    apply grouping_partition. }
  repeat split.
  - exact Hrun.
  - rewrite grouping_keys. apply first_rows_NoDup.
  - intros v Hv. now apply grouping_holds.
  - intros k g Hin. now apply grouping_In.
  - exact Hperm.
  - rewrite total_is_flat_length.
    + rewrite (Permutation_length Hperm). apply length_map.
    + eapply Forall_impl; [|apply (groupByEvent_populated _ _ Hrun)].
      intros g Hg. apply Hg.
Qed.

(** C1. Event ids are UUIDs (the route checks [isValidUUID] before it
    compares a parameter with [event_id]).  For every input sequence of
    joined rows, non-empty or not, whose surviving rows carry such event
    ids (the rows that survive are those with a non-null event id and a
    resolvable nested event record with an id, [valid_rows]), the loop
    ends normally and its groups partition the
    surviving rows: the keys of the groups are pairwise distinct, every
    surviving row is in the waitlist of the group of its key, the waitlist
    of the group of a key is exactly the entries of the surviving rows
    with that key, the waitlists of the returned groups taken together are
    a rearrangement of the surviving rows' entries, and the [totalCount]s
    add up to the number of surviving rows. *)
Theorem groups_partition_surviving_rows :
  forall rows : list JoinedRow,
    Forall (fun v => uuid_shaped (v_key v)) (valid_rows rows) ->
    exists groupedByEvent,
      groupByEvent (Some rows) = Ok groupedByEvent /\
      NoDup (map fst groupedByEvent) /\
      (forall v, In v (valid_rows rows) ->
                 exists g, In (v_key v, g) groupedByEvent /\
                           In (v_entry v) (waitlist g)) /\
      (forall k g, In (k, g) groupedByEvent ->
                   waitlist g = entries_of (valid_rows rows) k) /\
      Permutation (flat_map waitlist (JsObject.values groupedByEvent))
                  (map v_entry (valid_rows rows)) /\
      list_sum (map totalCount (JsObject.values groupedByEvent))
      = length (valid_rows rows).
Proof.
  intros rows Huuid.
  apply groups_partition_own_keys.
  eapply Forall_impl; [|apply (uuid_keys_are_plain _ Huuid)].
  now intros v [Hv _].
Qed.

(** The theorem at three rows of two events. *)
Lemma groups_partition_sample :
  exists groupedByEvent,
    groupByEvent (Some sample_rows) = Ok groupedByEvent /\
    NoDup (map fst groupedByEvent) /\
    (forall v, In v (valid_rows sample_rows) ->
               exists g, In (v_key v, g) groupedByEvent /\
                         In (v_entry v) (waitlist g)) /\
    (forall k g, In (k, g) groupedByEvent ->
                 waitlist g = entries_of (valid_rows sample_rows) k) /\
    Permutation (flat_map waitlist (JsObject.values groupedByEvent))
                (map v_entry (valid_rows sample_rows)) /\
    list_sum (map totalCount (JsObject.values groupedByEvent))
    = length (valid_rows sample_rows).
Proof.
  apply (groups_partition_surviving_rows sample_rows).
  repeat (constructor; try (split; reflexivity)).
Defined.

(** The event ids of the table are UUIDs.  A key that is no UUID and
    names a property inherited from [Object.prototype], such as
    [constructor], is found in the fresh accumulator without being an own
    property, and the push on it throws. *)
Lemma inherited_key_aborts_grouping :
  length (valid_rows inherited_rows) = 1 /\
  groupByEvent (Some inherited_rows) = Throw TypeError /\
  GET shape_test (signed_in "admin@example.org")
      (sample_client roles_table inherited_rows) None
  = json (ErrorBody "Internal server error") 500 /\
  initial_waitlist
    (getInitialWaitlist (signed_in "admin@example.org")
                        (sample_client roles_table inherited_rows)) = [].
Proof. repeat split. Qed.

(** C2. In every leaderboard the route returns, in every list the page
    starts with, and in the values of every normally ended grouping loop,
    each group's [totalCount] equals the length of its [waitlist]. *)
Theorem totalCount_is_waitlist_length :
  forall isValidUUID session client eventIdParam waitlistEntries,
    Forall well_counted
           (leaderboard_of (GET isValidUUID session client eventIdParam)) /\
    Forall well_counted (initial_waitlist (getInitialWaitlist session client)) /\
    (forall groupedByEvent,
        groupByEvent waitlistEntries = Ok groupedByEvent ->
        Forall well_counted (JsObject.values groupedByEvent)).
Proof.
  assert (H : forall waitlistEntries groupedByEvent,
             groupByEvent waitlistEntries = Ok groupedByEvent ->
             Forall well_counted (JsObject.values groupedByEvent)).
  { intros we o Ho. eapply Forall_impl; [|apply (groupByEvent_populated _ _ Ho)].
    intros g Hg. apply Hg. }
  intros isValidUUID session client eventIdParam waitlistEntries.
  destruct (handlers_return_loop_groups well_counted H
              isValidUUID session client eventIdParam) as [H1 H2].
  repeat split; [exact H1 | exact H2 | apply H].
Qed.

(** C10. Every group of every leaderboard the route returns, of every
    list the page starts with, and of every normally ended grouping loop
    holds at least one entry: its waitlist is not empty and its
    [totalCount] is at least 1. *)
Theorem groups_are_never_empty :
  forall isValidUUID session client eventIdParam waitlistEntries,
    let nonempty := fun g => 1 <= totalCount g /\ waitlist g <> [] in
    Forall nonempty (leaderboard_of (GET isValidUUID session client eventIdParam)) /\
    Forall nonempty (initial_waitlist (getInitialWaitlist session client)) /\
    (forall groupedByEvent,
        groupByEvent waitlistEntries = Ok groupedByEvent ->
        Forall nonempty (JsObject.values groupedByEvent)).
Proof.
  intros isValidUUID session client eventIdParam waitlistEntries nonempty.
  assert (H : forall waitlistEntries groupedByEvent,
             groupByEvent waitlistEntries = Ok groupedByEvent ->
             Forall nonempty (JsObject.values groupedByEvent)).
  { intros we o Ho. eapply Forall_impl; [|apply (groupByEvent_populated _ _ Ho)].
    intros g Hg. apply Hg. }
  destruct (handlers_return_loop_groups nonempty H
              isValidUUID session client eventIdParam) as [H1 H2].
  repeat split; [exact H1 | exact H2 | apply H].
Qed.

(** C3. The row normalizer. An array relation resolves to its first
    element and an empty array to nothing; an object resolves to itself;
    a null relation resolves to nothing. A row whose relation resolves to
    nothing, or to a record whose [id] is null or empty, leaves the
    accumulator as it was and throws nothing, whatever the accumulator;
    so does a row without event id. A row that passes the guards is
    grouped under its event id with the resolved record's fields. Rows
    that are all dropped give the empty object, normally. *)
Theorem row_normalizer_policy :
  (forall e es, resolveEvents (RelArray (e :: es)) = Some e) /\
  resolveEvents (RelArray []) = None /\
  (forall e, resolveEvents (RelObject e) = Some e) /\
  resolveEvents RelNull = None /\
  (forall acc entry,
      resolveEvents (r_events entry) = None -> groupEntry acc entry = Ok acc) /\
  (forall acc entry e,
      resolveEvents (r_events entry) = Some e -> truthy (raw_id e) = None ->
      groupEntry acc entry = Ok acc) /\
  (forall acc entry,
      truthy (r_event_id entry) = None -> groupEntry acc entry = Ok acc) /\
  (forall acc entry eventId e id,
      truthy (r_event_id entry) = Some eventId ->
      resolveEvents (r_events entry) = Some e ->
      truthy (raw_id e) = Some id ->
      groupEntry acc entry
      = place acc {| v_key := eventId;
                     v_event := eventOf e id;
                     v_entry := entryOf entry |}) /\
  (forall rows,
      valid_rows rows = [] -> groupByEvent (Some rows) = Ok JsObject.empty).
Proof.
  repeat split; try reflexivity.
  - intros acc entry H. unfold groupEntry. rewrite H.
    now destruct (truthy (r_event_id entry)).
  - intros acc entry e H1 H2. unfold groupEntry. rewrite H1, H2.
    now destruct (truthy (r_event_id entry)).
  - intros acc entry H. unfold groupEntry. now rewrite H.
  - intros acc entry eventId e id H1 H2 H3.
    rewrite groupEntry_validate. unfold validate. now rewrite H1, H2, H3.
  - intros rows Hnone. simpl. now rewrite forEach_valid_rows, Hnone.
Qed.

(** First-seen order, for keys that are own properties whenever they are
    found and that are not array indices. *)
Lemma first_seen_order_plain_keys :
  forall rows : list JoinedRow,
    Forall (fun v => own_only (v_key v) /\ not_index (v_key v)) (valid_rows rows) ->
    exists groupedByEvent,
      groupByEvent (Some rows) = Ok groupedByEvent /\
      JsObject.values groupedByEvent = map snd groupedByEvent /\
      map fst groupedByEvent = first_seen (map v_key (valid_rows rows)) /\
      NoDup (map fst groupedByEvent) /\
      groupedByEvent
      = map (fun v => (v_key v,
                       {| event := v_event v;
                          waitlist := map v_entry
                                          (filter (has_key (v_key v)) (valid_rows rows));
                          totalCount := length (filter (has_key (v_key v))
                                                       (valid_rows rows)) |}))
            (first_rows (valid_rows rows)).
Proof.
  intros rows H.
  assert (Hown : Forall (fun v => own_only (v_key v)) (valid_rows rows))
    by (eapply Forall_impl; [|exact H]; now intros v [Hv _]).
  exists (grouping (valid_rows rows)).
  split; [now apply groupByEvent_grouping|].
  split.
  { apply values_creation_order. rewrite grouping_keys.
    rewrite Forall_forall in *. intros k Hk.
    apply in_map_iff in Hk. destruct Hk as [v [<- Hv]].
    assert (Hin : In (v_key v) (map v_key (valid_rows rows))).
    { apply first_rows_keys. now apply in_map. }
    apply in_map_iff in Hin. destruct Hin as [u [Hu Hin]].
    rewrite <- Hu. now apply H. }
  split; [rewrite grouping_keys; apply first_rows_first_seen|].
  split; [rewrite grouping_keys; apply first_rows_NoDup|].
  unfold grouping, group_of, entries_of.
  apply map_ext. intros v. now rewrite length_map.
Qed.

(** C4. For every input sequence whose surviving rows carry UUID event
    ids, the loop ends normally and [Object.values] lists one group per
    distinct event id of the surviving rows, in order of first occurrence:
    the values are the groups in creation order, the keys, in output
    order, are the distinct event ids in first-seen order, and the group
    of each key holds the entries of the surviving rows with that key in
    input order, with their number and the event details of the first of
    them. *)
Theorem leaderboard_in_first_seen_order :
  forall rows : list JoinedRow,
    Forall (fun v => uuid_shaped (v_key v)) (valid_rows rows) ->
    exists groupedByEvent,
      groupByEvent (Some rows) = Ok groupedByEvent /\
      JsObject.values groupedByEvent = map snd groupedByEvent /\
      map fst groupedByEvent = first_seen (map v_key (valid_rows rows)) /\
      NoDup (map fst groupedByEvent) /\
      groupedByEvent
      = map (fun v => (v_key v,
                       {| event := v_event v;
                          waitlist := map v_entry
                                          (filter (has_key (v_key v)) (valid_rows rows));
                          totalCount := length (filter (has_key (v_key v))
                                                       (valid_rows rows)) |}))
            (first_rows (valid_rows rows)).
Proof.
  intros rows Huuid.
  apply first_seen_order_plain_keys.
  now apply uuid_keys_are_plain.
Qed.

(** The theorem at three rows of two events. *)
Lemma first_seen_order_sample :
  exists groupedByEvent,
    groupByEvent (Some sample_rows) = Ok groupedByEvent /\
    JsObject.values groupedByEvent = map snd groupedByEvent /\
    map fst groupedByEvent = first_seen (map v_key (valid_rows sample_rows)) /\
    NoDup (map fst groupedByEvent) /\
    groupedByEvent
    = map (fun v => (v_key v,
                     {| event := v_event v;
                        waitlist := map v_entry
                                        (filter (has_key (v_key v))
                                                (valid_rows sample_rows));
                        totalCount := length (filter (has_key (v_key v))
                                                     (valid_rows sample_rows)) |}))
          (first_rows (valid_rows sample_rows)).
Proof.
  apply (leaderboard_in_first_seen_order sample_rows).
  repeat (constructor; try (split; reflexivity)).
Defined.

(** A key that is no UUID and reads as an array index is listed by
    [Object.values] in numeric order: with the keys [2] then [1], the
    groups are created in that order and listed in the other. *)
Lemma integer_like_ids_come_out_in_numeric_order :
  exists groupedByEvent,
    groupByEvent (Some numeric_rows) = Ok groupedByEvent /\
    first_seen (map v_key (valid_rows numeric_rows)) = [ "2"; "1" ] /\
    map fst groupedByEvent = [ "2"; "1" ] /\
    map (fun g => e_id (event g)) (JsObject.values groupedByEvent) = [ "1"; "2" ].
Proof. eexists. repeat split. Qed.

(** An admin's request for all events, over a query that succeeded. *)
Lemma handlers_on_grouped_rows isValidUUID session client email rows groupedByEvent :
  verifyAdminRequest session client = Authorized email client ->
  waitlist_joined client = {| data := Some rows; error := None |} ->
  groupByEvent (Some rows) = Ok groupedByEvent ->
  GET isValidUUID session client None
  = json (GroupedBody (JsObject.values groupedByEvent)) 200 /\
  getInitialWaitlist session client
  = {| initial_waitlist := JsObject.values groupedByEvent; isGrouped := true |}.
Proof.
  intros Hauth Hq Hrun. unfold GET, getInitialWaitlist.
  rewrite Hauth, Hq. simpl truthy. cbv iota. simpl error. simpl data.
  now rewrite Hrun.
Qed.

(** With event ids in the text form of a UUID, an admin's request for all
    events is answered 200 with the grouping of the surviving rows: one
    group per distinct event id in first-seen order, each with the entries
    of its rows in input order and their number; the page starts with the
    same list. *)
Theorem uuid_rows_leaderboard :
  forall isValidUUID session client email rows,
    verifyAdminRequest session client = Authorized email client ->
    waitlist_joined client = {| data := Some rows; error := None |} ->
    Forall (fun v => uuid_shaped (v_key v)) (valid_rows rows) ->
    let leaderboard :=
      map (group_of (valid_rows rows)) (first_rows (valid_rows rows)) in
    GET isValidUUID session client None = json (GroupedBody leaderboard) 200 /\
    getInitialWaitlist session client
    = {| initial_waitlist := leaderboard; isGrouped := true |} /\
    map (fun g => length (waitlist g)) leaderboard = map totalCount leaderboard /\
    Permutation (flat_map waitlist leaderboard) (map v_entry (valid_rows rows)).
Proof.
  intros isValidUUID session client email rows Hauth Hq Huuid leaderboard.
  pose proof (uuid_keys_are_plain _ Huuid) as Hplain.
  assert (Hown : Forall (fun v => own_only (v_key v)) (valid_rows rows))
    by (eapply Forall_impl; [|exact Hplain]; now intros v [Hv _]).
  assert (Hvalues : JsObject.values (grouping (valid_rows rows)) = leaderboard).
  { rewrite values_creation_order.
    - unfold grouping, leaderboard. now rewrite map_map.
    - rewrite grouping_keys. rewrite Forall_forall in *. intros k Hk.
      apply in_map_iff in Hk. destruct Hk as [v [<- Hv]].
      assert (Hin : In (v_key v) (map v_key (valid_rows rows))).
      { apply first_rows_keys. now apply in_map. }
      apply in_map_iff in Hin. destruct Hin as [u [Hu Hin]].
      rewrite <- Hu. now apply Hplain. }
  destruct (handlers_on_grouped_rows isValidUUID session client email rows
              (grouping (valid_rows rows)) Hauth Hq
              (groupByEvent_grouping rows Hown)) as [HG HP].
  rewrite Hvalues in HG, HP.
  repeat split; [exact HG | exact HP | |].
  - unfold leaderboard. rewrite !map_map. reflexivity.
  - rewrite <- Hvalues.
    rewrite (Permutation_flat_map waitlist (values_perm _)).
    apply grouping_partition.
Qed.

(** The theorem at the sample rows. *)
Lemma uuid_rows_leaderboard_sample :
  let leaderboard :=
    map (group_of (valid_rows sample_rows)) (first_rows (valid_rows sample_rows)) in
  GET shape_test (signed_in "admin@example.org")
      (sample_client roles_table sample_rows) None
  = json (GroupedBody leaderboard) 200 /\
  getInitialWaitlist (signed_in "admin@example.org")
                     (sample_client roles_table sample_rows)
  = {| initial_waitlist := leaderboard; isGrouped := true |} /\
  map (fun g => length (waitlist g)) leaderboard = map totalCount leaderboard /\
  Permutation (flat_map waitlist leaderboard) (map v_entry (valid_rows sample_rows)).
Proof.
  apply (uuid_rows_leaderboard shape_test (signed_in "admin@example.org")
           (sample_client roles_table sample_rows) "admin@example.org" sample_rows).
  - reflexivity.
  - reflexivity.
  - repeat (constructor; try (split; reflexivity)).
Defined.

(** Scenario 1 of the specification: two rows of one event and one of
    another give two groups, of 2 and of 1, the first-seen event first. *)
Example leaderboard_of_scenario_1 :
  map (fun g => (e_id (event g), map w_id (waitlist g), totalCount g))
      (leaderboard_of (GET shape_test (signed_in "admin@example.org")
                           (sample_client roles_table sample_rows) None))
  = [ (event_b, [ "w1"; "w2" ], 2); (event_a, [ "w3" ], 1) ].
Proof. reflexivity. Qed.

(** Scenario 2 of the specification: no rows, an empty leaderboard. *)
Example leaderboard_of_scenario_2 :
  GET shape_test (signed_in "admin@example.org")
      (sample_client roles_table []) None
  = json (GroupedBody []) 200.
Proof. reflexivity. Qed.

(** A row without event id, a row whose relation is an empty array and a
    row whose nested record has no id are skipped; a relation encoded as
    a one-element array is used. *)
Example malformed_rows_are_skipped :
  let ok := sample_row "w1" "ann@example.org" 1 event_a in
  let rows :=
    [ {| r_id := "w0"; r_email := "x@example.org"; r_referral := None;
         r_position := 1; r_created_at := ""; r_event_id := None;
         r_events := RelObject (sample_event event_a "Talk") |};
      {| r_id := "w1"; r_email := "ann@example.org"; r_referral := None;
         r_position := 1; r_created_at := "2025-01-01T00:00:00Z";
         r_event_id := Some event_a;
         r_events := RelArray [ sample_event event_a "Talk" ] |};
      {| r_id := "w2"; r_email := "y@example.org"; r_referral := None;
         r_position := 2; r_created_at := ""; r_event_id := Some event_a;
         r_events := RelArray [] |};
      {| r_id := "w3"; r_email := "z@example.org"; r_referral := None;
         r_position := 3; r_created_at := ""; r_event_id := Some event_a;
         r_events := RelObject {| raw_id := None; raw_name := None;
                                  raw_capacity := 0; raw_reserved := None;
                                  raw_start_time_date := None;
                                  raw_venue := None |} |} ] in
  groupByEvent (Some rows) = groupByEvent (Some [ ok ]).
Proof. reflexivity. Qed.

(** An admin's request with an [eventId] that fails the format test is
    answered 400 whatever the database holds: no query result is read. *)
Theorem malformed_event_id_is_400 :
  forall isValidUUID session client email eventId,
    verifyAdminRequest session client = Authorized email client ->
    eventId <> "" ->
    isValidUUID eventId = false ->
    GET isValidUUID session client (Some eventId)
    = json (ErrorBody "Invalid event ID format") 400.
Proof.
  intros isValidUUID session client email eventId Hauth Hne Hbad.
  unfold GET. rewrite Hauth. simpl.
  destruct (String.eqb_spec eventId ""); [contradiction|].
  now rewrite Hbad.
Qed.

(** The theorem at Scenario 4 of the specification. *)
Lemma malformed_event_id_sample :
  GET shape_test (signed_in "admin@example.org")
      (sample_client roles_table sample_rows) (Some "not-a-uuid")
  = json (ErrorBody "Invalid event ID format") 400.
Proof.
  apply (malformed_event_id_is_400 shape_test (signed_in "admin@example.org")
           (sample_client roles_table sample_rows) "admin@example.org" "not-a-uuid").
  - reflexivity.
  - discriminate.
  - reflexivity.
Defined.

(** An admin's request for one event that exists and whose waitlist
    query succeeds is answered 200 with the event, its waitlist as
    queried, and [totalCount] the length of that waitlist. *)
Theorem single_event_waitlist :
  forall isValidUUID session client email eventId event entries,
    verifyAdminRequest session client = Authorized email client ->
    eventId <> "" ->
    isValidUUID eventId = true ->
    events_single client eventId = {| data := Some event; error := None |} ->
    waitlist_of_event client eventId = {| data := Some entries; error := None |} ->
    GET isValidUUID session client (Some eventId)
    = json (SingleBody event entries (length entries)) 200.
Proof.
  intros isValidUUID session client email eventId ev entries
         Hauth Hne Hok Hev Hwl.
  unfold GET. rewrite Hauth. simpl.
  destruct (String.eqb_spec eventId ""); [contradiction|].
  rewrite Hok, Hev, Hwl. reflexivity.
Qed.

(** The theorem at the sample event. *)
Lemma single_event_waitlist_sample :
  GET shape_test (signed_in "admin@example.org")
      (sample_client roles_table sample_rows) (Some event_a)
  = json (SingleBody (sample_event event_a "Talk")
                     [ entryOf (sample_row "w3" "cyd@example.org" 1 event_a) ]
                     (length [ entryOf (sample_row "w3" "cyd@example.org" 1 event_a) ]))
         200.
Proof.
  apply (single_event_waitlist shape_test (signed_in "admin@example.org")
           (sample_client roles_table sample_rows) "admin@example.org" event_a).
  - reflexivity.
  - discriminate.
  - reflexivity.
  - reflexivity.
  - reflexivity.
Defined.

(* ===================================================================== *)
(** * Admin verification: the claims *)
(* ===================================================================== *)

(** Splitting undoes joining: the pieces, joined by the separator, give
    the string back. *)
Lemma split_join sep s :
  String.concat (String sep "") (split sep s) = s.
Proof.
  induction s as [|c s IH]; simpl; [reflexivity|].
  destruct (Ascii.eqb_spec c sep) as [->|Hne].
  - destruct (split sep s) as [|tok toks] eqn:E.
    + simpl in IH. subst s. discriminate E.
    + simpl. simpl in IH. now rewrite IH.
  - destruct (split sep s) as [|tok toks] eqn:E.
    + simpl in IH. subst s. discriminate E.
    + simpl in *. destruct toks; simpl in *; now rewrite IH.
Qed.

(** No piece contains the separator. *)
Lemma split_pieces sep s :
  Forall (fun tok => mentions sep tok = false) (split sep s).
Proof.
  induction s as [|c s IH]; simpl; [repeat constructor|].
  destruct (Ascii.eqb_spec c sep) as [->|Hne].
  - constructor; [reflexivity | exact IH].
  - destruct (split sep s) as [|tok toks].
    + constructor; [|constructor]. simpl.
      destruct (Ascii.eqb_spec c sep); [contradiction | reflexivity].
    + inversion IH as [|? ? Htok Htoks]; subst.
      constructor; [|exact Htoks]. simpl.
      destruct (Ascii.eqb_spec c sep); [contradiction | exact Htok].
Qed.

Lemma includes_In xs x : includes xs x = true <-> In x xs.
Proof.
  unfold includes. rewrite existsb_exists. split.
  - intros [y [Hin Heq]]. apply String.eqb_eq in Heq. now subst.
  - intros Hin. exists x. split; [exact Hin | apply String.eqb_refl].
Qed.

(** C9. The verification authorizes exactly when the session has no
    error and a user with a non-empty email, the roles table has a record
    for that email, and [admin] is one of the pieces of the record's
    roles string split at commas. The pieces are what stands between the
    commas: joined by commas they give the string back, and none contains
    a comma. A roles string [administrator], or one with a space before
    [admin], does not authorize; an authorized result carries the email
    and the client. *)
Theorem verifyAdminRequest_authorizes_iff :
  forall session adminClient,
    (authorized (verifyAdminRequest session adminClient) = true <->
     exists email adminRecord rs,
       userError session = None /\
       email_of (user session) = Some email /\ email <> "" /\
       roles_single adminClient email = Some adminRecord /\
       roles adminRecord = Some rs /\
       In "admin" (split "," rs)) /\
    (forall email client,
        verifyAdminRequest session adminClient = Authorized email client ->
        client = adminClient /\ email_of (user session) = Some email) /\
    (forall rs, String.concat "," (split "," rs) = rs /\
                Forall (fun tok => mentions "," tok = false) (split "," rs)) /\
    includes (split "," "administrator") "admin" = false /\
    includes (split "," "editor, admin") "admin" = false /\
    includes (split "," "editor,admin") "admin" = true.
Proof.
  intros session adminClient. split; [|split; [|split; [|repeat split]]].
  - unfold verifyAdminRequest, truthy.
    destruct (userError session) as [e|].
    { simpl. split; [discriminate|]. intros (email & r & rs & H & _). discriminate. }
    destruct (email_of (user session)) as [email|].
    2:{ simpl. split; [discriminate|].
        intros (email & r & rs & _ & H & _). discriminate. }
    destruct (String.eqb_spec email "") as [->|Hne].
    { simpl. split; [discriminate|].
      intros (email & r & rs & _ & [= <-] & H & _). now elim H. }
    destruct (roles_single adminClient email) as [r|] eqn:Hr.
    2:{ simpl. split; [discriminate|].
        intros (email' & r & rs & _ & [= <-] & _ & H & _). congruence. }
    destruct (roles r) as [rs|] eqn:Hrs.
    2:{ simpl. split; [discriminate|].
        intros (email' & r' & rs & _ & [= <-] & _ & H1 & H2 & _). congruence. }
    destruct (includes (split "," rs) "admin") eqn:Hinc; simpl.
    + split; [intros _ | reflexivity].
      exists email, r, rs. repeat split; auto. now apply includes_In.
    + split; [discriminate|].
      intros (email' & r' & rs' & _ & [= <-] & _ & H1 & H2 & H3).
      assert (r' = r) by congruence. subst r'.
      assert (rs' = rs) by congruence. subst rs'.
      apply includes_In in H3. congruence.
  - intros email client. unfold verifyAdminRequest, truthy.
    destruct (userError session); [discriminate|].
    destruct (email_of (user session)) as [e|]; [|discriminate].
    destruct (String.eqb e ""); [discriminate|].
    destruct (roles_single adminClient e) as [r|]; [|discriminate].
    destruct (roles r) as [rs|]; [|discriminate].
    destruct (includes (split "," rs) "admin"); [|discriminate].
    intros [= <- <-]. auto.
  - intros rs. split; [apply split_join | apply split_pieces].
Qed.

Lemma unauthorized_message session client :
  authorized (verifyAdminRequest session client) = false ->
  exists message,
    verifyAdminRequest session client = Unauthorized message /\
    (message = "Not authenticated" /\
     (userError session <> None \/ truthy (email_of (user session)) = None)
     \/
     message = "Not authorized" /\
     userError session = None /\ truthy (email_of (user session)) <> None).
Proof.
  unfold verifyAdminRequest.
  destruct (userError session) as [e|].
  { intros _. eexists. split; [reflexivity|]. left. split; [reflexivity|].
    left. discriminate. }
  destruct (truthy (email_of (user session))) as [email|].
  2:{ intros _. eexists. split; [reflexivity|]. left. auto. }
  assert (Hright : forall m, m = "Not authorized" ->
            m = "Not authenticated" /\ (@None string <> None \/ Some email = None)
            \/ m = "Not authorized" /\ @None string = None /\ Some email <> None).
  { intros m ->. right. repeat split. discriminate. }
  destruct (roles_single client email) as [r|].
  2:{ intros _. eexists. split; [reflexivity | now apply Hright]. }
  destruct (roles r) as [rs|].
  2:{ intros _. eexists. split; [reflexivity | now apply Hright]. }
  destruct (includes (split "," rs) "admin"); [discriminate|].
  intros _. eexists. split; [reflexivity | now apply Hright].
Qed.

(* ===================================================================== *)
(** * Denied requests: the claims *)
(* ===================================================================== *)

(** C5 (as amended). For every request the verification denies, the
    route answers 401 with a body that holds an [error] field and nothing
    else; the message is the verification's own: [Not authenticated] when
    the session has an error or no user with a non-empty email, and
    [Not authorized] when there is such a user without the admin role. *)
Theorem unauthorized_is_401_with_error_body :
  forall isValidUUID session client eventIdParam,
    authorized (verifyAdminRequest session client) = false ->
    exists message,
      GET isValidUUID session client eventIdParam = json (ErrorBody message) 401 /\
      (message = "Not authenticated" /\
       (userError session <> None \/ truthy (email_of (user session)) = None)
       \/
       message = "Not authorized" /\
       userError session = None /\ truthy (email_of (user session)) <> None).
Proof.
  intros isValidUUID session client eventIdParam H.
  destruct (unauthorized_message session client H) as [message [Hv Hm]].
  exists message. split; [|exact Hm].
  unfold GET. now rewrite Hv.
Qed.

(** The theorem at a request without session. *)
Lemma unauthorized_signed_out :
  exists message,
    GET shape_test signed_out (sample_client roles_table sample_rows) None
    = json (ErrorBody message) 401 /\
    (message = "Not authenticated" /\
     (userError signed_out <> None \/ truthy (email_of (user signed_out)) = None)
     \/
     message = "Not authorized" /\
     userError signed_out = None /\ truthy (email_of (user signed_out)) <> None).
Proof.
  apply (unauthorized_is_401_with_error_body shape_test signed_out
           (sample_client roles_table sample_rows) None).
  reflexivity.
Defined.

(** C5 (as stated) fails in its last part: a caller who is not logged in
    and a caller who is logged in without the admin role are both denied
    with 401, and the two bodies differ. *)
Lemma denial_messages_tell_callers_apart :
  authorized (verifyAdminRequest signed_out
                (sample_client roles_table sample_rows)) = false /\
  authorized (verifyAdminRequest (signed_in "staff@example.org")
                (sample_client roles_table sample_rows)) = false /\
  GET shape_test signed_out (sample_client roles_table sample_rows) None
  = json (ErrorBody "Not authenticated") 401 /\
  GET shape_test (signed_in "staff@example.org")
      (sample_client roles_table sample_rows) None
  = json (ErrorBody "Not authorized") 401.
Proof. repeat split. Qed.

(** C6 (as amended). The verification comes first in both entry points.
    On denial the page's loader returns the empty default, whatever the
    database holds, and raises nothing. The route does not: it answers
    401 with an error body, which is no empty result set, and the viewer
    that fetched it shows the message as an error and keeps the list it
    had. *)
Theorem denial_short_circuits :
  forall isValidUUID session client eventIdParam,
    authorized (verifyAdminRequest session client) = false ->
    getInitialWaitlist session client
    = {| initial_waitlist := []; isGrouped := true |} /\
    exists message,
      GET isValidUUID session client eventIdParam = json (ErrorBody message) 401 /\
      empty_result (GET isValidUUID session client eventIdParam) = false /\
      forall s,
        Viewer.fetch_settle s (delivered (GET isValidUUID session client eventIdParam))
        = Viewer.fail s message.
Proof.
  intros isValidUUID session client eventIdParam H.
  destruct (unauthorized_message session client H) as [message [Hv Hm]].
  split.
  - unfold getInitialWaitlist. now rewrite Hv.
  - exists message.
    assert (HG : GET isValidUUID session client eventIdParam
                 = json (ErrorBody message) 401)
      by (unfold GET; now rewrite Hv).
    rewrite HG. repeat split.
    intros s. unfold Viewer.fetch_settle, delivered. simpl.
    destruct Hm as [[-> _]|[-> _]]; reflexivity.
Qed.

(** The theorem at a request without session. *)
Lemma denial_short_circuits_signed_out :
  getInitialWaitlist signed_out (sample_client roles_table sample_rows)
  = {| initial_waitlist := []; isGrouped := true |} /\
  exists message,
    GET shape_test signed_out (sample_client roles_table sample_rows) None
    = json (ErrorBody message) 401 /\
    empty_result (GET shape_test signed_out
                      (sample_client roles_table sample_rows) None) = false /\
    forall s,
      Viewer.fetch_settle s
        (delivered (GET shape_test signed_out
                        (sample_client roles_table sample_rows) None))
      = Viewer.fail s message.
Proof.
  apply (denial_short_circuits shape_test signed_out
           (sample_client roles_table sample_rows) None).
  reflexivity.
Defined.

(** C6 (as stated) fails for the route: a denied request gets a 401 with
    an error body, not an empty result set, and the viewer shows the
    error to the user. *)
Lemma denied_route_request_gets_an_error :
  authorized (verifyAdminRequest signed_out
                (sample_client roles_table sample_rows)) = false /\
  status (GET shape_test signed_out (sample_client roles_table sample_rows) None)
  = 401 /\
  empty_result (GET shape_test signed_out
                    (sample_client roles_table sample_rows) None) = false /\
  Viewer.errorMessage
    (Viewer.fetch_settle
       (Viewer.view (Viewer.mount (Viewer.Groups []) true None))
       (delivered (GET shape_test signed_out
                       (sample_client roles_table sample_rows) None)))
  = Some "Not authenticated".
Proof. repeat split. Qed.

(* ===================================================================== *)
(** * The viewer: which response is displayed *)
(* ===================================================================== *)

Lemma fetch_settle_success s response :
  Viewer.succeeds response = true ->
  Viewer.shown (Viewer.fetch_settle s response)
  = match Viewer.parsed response with
    | inr (GroupedBody leaderboard) => Viewer.Groups leaderboard
    | inr (SingleBody _ waitlist _) => Viewer.Entries waitlist
    | _ => Viewer.Entries []
    end
  /\ Viewer.selectedEventId (Viewer.fetch_settle s response)
     = Viewer.selectedEventId s.
Proof.
  unfold Viewer.succeeds, Viewer.fetch_settle.
  destruct (Viewer.ok response); simpl; [|discriminate].
  destruct (Viewer.contentType response) as [ct|]; simpl; [|discriminate].
  destruct (Viewer.mentions_json ct); simpl; [|discriminate].
  destruct (Viewer.parsed response) as [msg|[e|ev wl n|lb]]; simpl;
    [discriminate | auto..].
Qed.

Lemma run_snoc server events e c :
  Viewer.run server (events ++ [e]) c
  = Viewer.step server (Viewer.run server events c) e.
Proof. unfold Viewer.run. now rewrite fold_left_app. Qed.

Lemma step_resolve server c n eventId :
  nth_error (Viewer.inflight c) n = Some eventId ->
  Viewer.step server c (Viewer.Resolve n)
  = {| Viewer.view := Viewer.fetch_settle (Viewer.view c) (server eventId);
       Viewer.inflight := Viewer.remove_nth n (Viewer.inflight c) |}.
Proof. intros H. simpl. now rewrite H. Qed.

(** C8 (as amended). Last completed wins. Whenever a request in flight
    resolves with a successful response, the viewer displays that
    response, whichever event is selected by then and whatever else is
    still in flight; the selection is left as it is. So after any
    sequence of events that ends with such a resolution, the display is
    the answer to the request that resolved last. *)
Theorem last_completed_response_wins :
  forall server events c n eventId,
    nth_error (Viewer.inflight (Viewer.run server events c)) n = Some eventId ->
    Viewer.succeeds (server eventId) = true ->
    let before := Viewer.run server events c in
    let after := Viewer.run server (events ++ [Viewer.Resolve n]) c in
    Viewer.shown (Viewer.view after) = Viewer.result_of server eventId /\
    Viewer.selectedEventId (Viewer.view after)
    = Viewer.selectedEventId (Viewer.view before) /\
    Viewer.inflight after = Viewer.remove_nth n (Viewer.inflight before).
Proof.
  intros server events c n eventId Hnth Hok before after.
  unfold after. rewrite run_snoc. fold before.
  rewrite (step_resolve server before n eventId Hnth). simpl.
  destruct (fetch_settle_success (Viewer.view before) (server eventId) Hok)
    as [H1 H2].
  repeat split; [|exact H2].
  rewrite H1. unfold Viewer.result_of. reflexivity.
Qed.

(** The theorem at the stale request of the sample viewer: the mount's
    request for all events resolves after the event was selected and its
    own request has resolved. *)
Lemma stale_response_is_displayed :
  let before := Viewer.run sample_server
                  [ Viewer.Select event_a; Viewer.Resolve 1 ] sample_viewer in
  let after := Viewer.run sample_server
                 ([ Viewer.Select event_a; Viewer.Resolve 1 ] ++ [ Viewer.Resolve 0 ])
                 sample_viewer in
  Viewer.shown (Viewer.view after) = Viewer.result_of sample_server "" /\
  Viewer.selectedEventId (Viewer.view after)
  = Viewer.selectedEventId (Viewer.view before) /\
  Viewer.inflight after = Viewer.remove_nth 0 (Viewer.inflight before).
Proof.
  apply (last_completed_response_wins sample_server
           [ Viewer.Select event_a; Viewer.Resolve 1 ] sample_viewer 0 "");
    reflexivity.
Defined.

(** C8 (as stated) fails: the viewer mounts and requests all events, the
    user selects an event, the request for the event resolves, then the
    older request resolves. Nothing is in flight any more, the event is
    still selected and its request succeeded; the grouped list of all
    events is displayed. *)
Lemma stale_response_overwrites_newer_one :
  let final := Viewer.run sample_server
                 [ Viewer.Select event_a; Viewer.Resolve 1; Viewer.Resolve 0 ]
                 sample_viewer in
  Viewer.inflight final = [] /\
  Viewer.selectedEventId (Viewer.view final) = event_a /\
  Viewer.succeeds (sample_server event_a) = true /\
  Viewer.grouped (Viewer.view final) = true /\
  Viewer.shown (Viewer.view final) = Viewer.result_of sample_server "" /\
  Viewer.shown (Viewer.view final) <> Viewer.result_of sample_server event_a /\
  ~ Viewer.last_requested_wins sample_server
      [ Viewer.Select event_a; Viewer.Resolve 1; Viewer.Resolve 0 ] sample_viewer.
Proof.
  cbv zeta.
  assert (Hne : Viewer.shown
                  (Viewer.view
                     (Viewer.run sample_server
                        [ Viewer.Select event_a; Viewer.Resolve 1; Viewer.Resolve 0 ]
                        sample_viewer))
                <> Viewer.result_of sample_server event_a)
    by (vm_compute; discriminate).
  repeat split; try exact Hne.
  intros H. apply Hne. apply H; reflexivity.
Qed.

(* ===================================================================== *)
(** * Hourly sales buckets: the running total *)
(* ===================================================================== *)

Section SalesFacts.
Import Sales.
Local Open Scope Z_scope.

Lemma insert_time_perm t l : Permutation (insert_time t l) (t :: l).
Proof.
  induction l as [|u l IH]; simpl; [reflexivity|].
  destruct (t <=? u); [reflexivity|].
  rewrite IH. apply perm_swap.
Qed.

Lemma sort_times_perm l : Permutation (sort_times l) l.
Proof.
  induction l as [|t l IH]; simpl; [reflexivity|].
  rewrite insert_time_perm. now constructor.
Qed.

Lemma insert_time_sorted t l : Sorted Z.le l -> Sorted Z.le (insert_time t l).
Proof.
  induction l as [|u l IH]; simpl; intros Hs.
  - repeat constructor.
  - destruct (Z.leb_spec t u).
    + constructor; [exact Hs | now constructor].
    + inversion Hs as [|? ? Hl Hhd]; subst.
      constructor; [now apply IH|].
      destruct l as [|w l]; simpl.
      * constructor. lia.
      * destruct (Z.leb_spec t w); constructor; [lia|].
        now inversion Hhd.
Qed.

Lemma sort_times_sorted l : StronglySorted Z.le (sort_times l).
Proof.
  apply Sorted_StronglySorted; [exact Z.le_trans|].
  induction l as [|t l IH]; simpl; [constructor | now apply insert_time_sorted].
Qed.

Lemma hourStart_aligned t : hourStart t = HOUR * (t / HOUR).
Proof.
  unfold hourStart. pose proof (Z.div_mod t HOUR). unfold HOUR in *. lia.
Qed.

Lemma hourStart_monotone t u : t <= u -> hourStart t <= hourStart u.
Proof.
  intros H. rewrite !hourStart_aligned.
  apply Z.mul_le_mono_nonneg_l; [unfold HOUR; lia|].
  apply Z.div_le_mono; [unfold HOUR; lia | exact H].
Qed.

Lemma hours_sorted l :
  StronglySorted Z.le l -> StronglySorted Z.le (map hourStart l).
Proof.
  induction 1 as [|t l Hs IH Hall]; simpl; constructor; [exact IH|].
  rewrite Forall_map. eapply Forall_impl; [|exact Hall].
  intros u Hu. now apply hourStart_monotone.
Qed.

Lemma sorted_below_last l : forall d x,
  StronglySorted Z.le l -> In x l -> x <= last l d.
Proof.
  induction l as [|a l IH]; intros d x Hs Hin; [contradiction|].
  inversion Hs as [|? ? Hl Hall]; subst.
  destruct l as [|b l].
  - destruct Hin as [->|[]]. simpl. lia.
  - change (last (a :: b :: l) d) with (last (b :: l) d).
    destruct Hin as [->|Hin].
    + rewrite Forall_forall in Hall.
      transitivity b; [apply Hall; now left | apply IH; [exact Hl | now left]].
    + now apply IH.
Qed.

(** *** Counts add up to the number of sales *)

Lemma bump_total h m :
  list_sum (map snd (bump h m)) = S (list_sum (map snd m)).
Proof.
  induction m as [|[h' n] m IH]; simpl; [reflexivity|].
  destruct (h =? h'); simpl; [reflexivity | rewrite IH; lia].
Qed.

Lemma sparse_total hours m :
  list_sum (map snd (fold_left (fun m h => bump h m) hours m))
  = (list_sum (map snd m) + length hours)%nat.
Proof.
  revert m. induction hours as [|h hours IH]; intros m; simpl; [lia|].
  rewrite IH, bump_total. lia.
Qed.

Lemma indicator_total (a : Z) (pts : list Z) :
  NoDup pts -> In a pts ->
  list_sum (map (fun p => if Z.eq_dec a p then 1%nat else 0%nat) pts) = 1%nat.
Proof.
  induction pts as [|p pts IH]; simpl; [tauto|].
  intros Hnd Hin. inversion Hnd as [|? ? Hnotin Hnd']; subst.
  destruct (Z.eq_dec a p) as [->|Hne].
  - f_equal. clear IH Hin Hnd Hnd'.
    induction pts as [|q pts IH]; simpl; [reflexivity|].
    simpl in Hnotin.
    destruct (Z.eq_dec p q); [exfalso; apply Hnotin; left; now symmetry|].
    apply IH. tauto.
  - simpl. apply IH; [exact Hnd'|]. destruct Hin; [congruence | assumption].
Qed.

Lemma list_sum_pointwise {A : Type} (f g : A -> nat) (l : list A) :
  list_sum (map (fun x => (f x + g x)%nat) l)
  = (list_sum (map f l) + list_sum (map g l))%nat.
Proof. induction l as [|x l IH]; simpl; [reflexivity | rewrite IH; lia]. Qed.

(** Counting the occurrences of each point of a duplicate-free cover
    counts every element once. *)
Lemma cover_total (pts l : list Z) :
  NoDup pts -> (forall x, In x l -> In x pts) ->
  list_sum (map (count_occ Z.eq_dec l) pts) = length l.
Proof.
  intros Hnd. induction l as [|a l IH]; intros Hcover; simpl.
  - clear Hnd Hcover. induction pts as [|p pts IH]; simpl; [reflexivity | exact IH].
  - rewrite (map_ext _ (fun p => ((if Z.eq_dec a p then 1 else 0)
                                  + count_occ Z.eq_dec l p)%nat)).
    + rewrite list_sum_pointwise, indicator_total, IH; auto.
      * intros x Hx. apply Hcover. now right.
      * apply Hcover. now left.
    + intros p. now destruct (Z.eq_dec a p).
Qed.

Lemma dense_points_NoDup first n :
  NoDup (map (fun i => first + Z.of_nat i * HOUR) (seq 0 n)).
Proof.
  apply Finite.Injective_map_NoDup; [|apply seq_NoDup].
  intros i j H. unfold HOUR in H. lia.
Qed.

Lemma dense_total hours :
  StronglySorted Z.le hours ->
  Forall (fun h => exists q, h = HOUR * q) hours ->
  list_sum (map snd (dense hours)) = length hours.
Proof.
  intros Hs Hal. unfold dense.
  destruct hours as [|first rest]; [reflexivity|].
  set (hours := first :: rest) in *.
  set (final := last hours first).
  set (n := S (Z.to_nat ((final - first) / HOUR))).
  transitivity
    (list_sum (map (count_occ Z.eq_dec hours)
                   (map (fun i => first + Z.of_nat i * HOUR) (seq 0 n)))).
  { rewrite !map_map. reflexivity. }
  apply cover_total; [apply dense_points_NoDup|].
  intros h Hin.
  assert (Hlo : first <= h).
  { inversion Hs as [|? ? _ Hall]; subst.
    destruct Hin as [<-|Hin]; [lia|].
    rewrite Forall_forall in Hall. now apply Hall. }
  assert (Hhi : h <= final) by now apply sorted_below_last.
  rewrite Forall_forall in Hal.
  destruct (Hal h Hin) as [q Hq].
  destruct (Hal first (or_introl eq_refl)) as [q0 Hq0].
  apply in_map_iff. exists (Z.to_nat (q - q0)). split.
  - unfold HOUR in *. rewrite Z2Nat.id; lia.
  - apply in_seq. split; [lia|]. simpl. unfold n.
    assert (q - q0 <= (final - first) / HOUR).
    { apply Z.div_le_lower_bound; unfold HOUR in *; lia. }
    assert (0 <= q - q0) by (unfold HOUR in *; lia).
    lia.
Qed.

(** *** The running-sum pass *)

Lemma running_nondecreasing counts : forall sofar,
  Sorted le (map cumulative (running sofar counts)) /\
  HdRel le sofar (map cumulative (running sofar counts)).
Proof.
  induction counts as [|[h n] counts IH]; intros sofar; simpl.
  - split; constructor.
  - destruct (IH (sofar + n)%nat) as [H1 H2].
    split; constructor; auto. lia.
Qed.

Lemma last_default {A : Type} (l : list A) (d d' : A) :
  l <> [] -> last l d = last l d'.
Proof.
  induction l as [|a l IH]; intros H; [congruence|].
  destruct l as [|b l]; [reflexivity|].
  change (last (b :: l) d = last (b :: l) d'). apply IH. discriminate.
Qed.

Lemma running_last counts : forall sofar,
  last (map cumulative (running sofar counts)) sofar
  = (sofar + list_sum (map snd counts))%nat.
Proof.
  induction counts as [|[h n] counts IH]; intros sofar; [simpl; lia|].
  specialize (IH (sofar + n)%nat).
  change (map cumulative (running sofar ((h, n) :: counts)))
    with ((sofar + n)%nat :: map cumulative (running (sofar + n)%nat counts)).
  destruct (map cumulative (running (sofar + n)%nat counts)) as [|c cs] eqn:E.
  - simpl in *. lia.
  - change (last ((sofar + n)%nat :: c :: cs) sofar) with (last (c :: cs) sofar).
    simpl list_sum. rewrite Nat.add_assoc, <- IH.
    apply last_default. discriminate.
Qed.

(** *** Bucket times ascend, and what each bucket counts *)

Lemma StronglySorted_lt_NoDup l : StronglySorted Z.lt l -> NoDup l.
Proof.
  induction 1 as [|a l Hs IH Hall]; constructor; [|exact IH].
  intros Hin. rewrite Forall_forall in Hall. specialize (Hall a Hin). lia.
Qed.

Lemma StronglySorted_snoc l h :
  StronglySorted Z.lt l -> (forall k, In k l -> k < h) ->
  StronglySorted Z.lt (l ++ [h]).
Proof.
  induction 1 as [|a l Hs IH Hall]; intros Hlt; simpl.
  - repeat constructor.
  - constructor.
    + apply IH. intros k Hk. apply Hlt. now right.
    + rewrite Forall_app. split; [exact Hall|].
      repeat constructor. apply Hlt. now left.
Qed.

Lemma sorted_app_below l1 x l2 :
  StronglySorted Z.le (l1 ++ x :: l2) -> forall y, In y l1 -> y <= x.
Proof.
  induction l1 as [|a l1 IH]; simpl; intros Hs y Hin; [contradiction|].
  inversion Hs as [|? ? Hl Hall]; subst.
  destruct Hin as [<-|Hin].
  - rewrite Forall_forall in Hall. apply Hall. apply in_elt.
  - now apply IH.
Qed.

Lemma bump_keys h m :
  map fst (bump h m)
  = if existsb (Z.eqb h) (map fst m) then map fst m else map fst m ++ [h].
Proof.
  induction m as [|[h' n] m IH]; simpl; [reflexivity|].
  destruct (h =? h'); simpl; [reflexivity|].
  rewrite IH. now destruct (existsb (Z.eqb h) (map fst m)).
Qed.

Lemma bump_In h m k n :
  NoDup (map fst m) -> In (k, n) (bump h m) ->
  (k <> h /\ In (k, n) m) \/
  (k = h /\ ((n = 1%nat /\ ~ In h (map fst m)) \/
             exists n0, n = S n0 /\ In (h, n0) m)).
Proof.
  induction m as [|[h' n'] m IH]; simpl; intros Hnd Hin.
  - destruct Hin as [Heq|[]]. inversion Heq; subst.
    right. split; [reflexivity|]. left. tauto.
  - inversion Hnd as [|? ? Hnotin Hnd']; subst.
    destruct (Z.eqb_spec h h') as [->|Hne].
    + destruct Hin as [Heq|Hin].
      * inversion Heq; subst. right. split; [reflexivity|].
        right. exists n'. split; [reflexivity | now left].
      * left. split; [|now right]. intros ->. apply Hnotin.
        change h' with (fst (h', n)). now apply in_map.
    + destruct Hin as [Heq|Hin].
      * inversion Heq; subst. left. split; [congruence | now left].
      * destruct (IH Hnd' Hin) as [[Hk Hm]|[-> [[-> Hno]|[n0 [-> Hm]]]]].
        -- left. split; [exact Hk | now right].
        -- right. split; [reflexivity|]. left. split; [reflexivity|].
           intros [Heq|Hm]; [congruence | contradiction].
        -- right. split; [reflexivity|]. right. exists n0.
           split; [reflexivity | now right].
Qed.

(** One more sale, in an hour not before the hours tallied so far. *)
Lemma bump_tallies h m done :
  tallies m done -> (forall k, In k (map fst m) -> In k done) ->
  (forall x, In x done -> x <= h) ->
  tallies (bump h m) (done ++ [h]) /\
  (forall k, In k (map fst (bump h m)) -> In k (done ++ [h])).
Proof.
  intros (Hs & Hc & Hcov) Hsub Hle.
  assert (Hex : existsb (Z.eqb h) (map fst m) = true <-> In h (map fst m)).
  { rewrite existsb_exists. split.
    - intros [x [Hx Heq]]. apply Z.eqb_eq in Heq. now subst.
    - intros Hin. exists h. split; [exact Hin | apply Z.eqb_refl]. }
  assert (Hkeys : forall k, In k (map fst (bump h m)) <-> In k (map fst m) \/ k = h).
  { intros k. rewrite bump_keys.
    destruct (existsb (Z.eqb h) (map fst m)) eqn:E.
    - split; [tauto|]. intros [H| ->]; [exact H | now apply Hex].
    - rewrite in_app_iff. simpl. intuition auto. }
  split; [split; [|split]|].
  - rewrite bump_keys. destruct (existsb (Z.eqb h) (map fst m)) eqn:E; [exact Hs|].
    apply StronglySorted_snoc; [exact Hs|]. intros k Hk.
    assert (k <= h) by (apply Hle, Hsub, Hk).
    assert (k <> h) by (intros ->; apply Hex in Hk; congruence).
    lia.
  - intros k n Hin. rewrite count_occ_app. simpl.
    apply bump_In in Hin; [|now apply StronglySorted_lt_NoDup].
    destruct Hin as [[Hne Hm]|[-> [[-> Hno]|[n0 [-> Hm]]]]].
    + destruct (Z.eq_dec h k); [congruence|]. rewrite (Hc _ _ Hm). lia.
    + destruct (Z.eq_dec h h); [|congruence].
      assert (Hzero : count_occ Z.eq_dec done h = 0%nat).
      { apply count_occ_not_In. intros Hin. apply Hno. now apply Hcov. }
      rewrite Hzero. reflexivity.
    + destruct (Z.eq_dec h h); [|congruence]. rewrite (Hc _ _ Hm). lia.
  - intros x Hx. apply Hkeys. apply in_app_iff in Hx.
    destruct Hx as [Hx|[<-|[]]]; [left; now apply Hcov | now right].
  - intros k Hk. apply Hkeys in Hk. rewrite in_app_iff. simpl.
    destruct Hk as [Hk| ->]; [left; now apply Hsub | right; now left].
Qed.

Lemma fold_bump_tallies rest : forall m done,
  tallies m done -> (forall k, In k (map fst m) -> In k done) ->
  StronglySorted Z.le (done ++ rest) ->
  tallies (fold_left (fun m h => bump h m) rest m) (done ++ rest).
Proof.
  induction rest as [|h rest IH]; intros m done Ht Hsub Hs; simpl.
  - now rewrite app_nil_r.
  - destruct (bump_tallies h m done Ht Hsub (sorted_app_below _ _ _ Hs))
      as [Ht' Hsub'].
    replace (done ++ h :: rest) with ((done ++ [h]) ++ rest)
      by (now rewrite <- app_assoc).
    apply IH; [exact Ht' | exact Hsub' |]. now rewrite <- app_assoc.
Qed.

Lemma sparse_tallies hours :
  StronglySorted Z.le hours -> tallies (sparse hours) hours.
Proof.
  intros Hs. apply (fold_bump_tallies hours [] []); [|intros k []|exact Hs].
  repeat split; [constructor | intros k n [] | intros h []].
Qed.

Lemma dense_points_ascend first n : forall s,
  StronglySorted Z.lt (map (fun i => first + Z.of_nat i * HOUR) (seq s n)).
Proof.
  induction n as [|n IH]; intros s; simpl; constructor; [apply IH|].
  rewrite Forall_map, Forall_forall. intros i Hi. apply in_seq in Hi.
  unfold HOUR. lia.
Qed.

Lemma dense_tallies hours :
  StronglySorted Z.le hours ->
  Forall (fun h => exists q, h = HOUR * q) hours ->
  tallies (dense hours) hours.
Proof.
  intros Hs Hal. unfold dense.
  destruct hours as [|first rest];
    [repeat split; [constructor | intros k n [] | intros h []]|].
  set (hours := first :: rest) in *.
  set (final := last hours first).
  set (n := S (Z.to_nat ((final - first) / HOUR))).
  assert (Hkeys :
            map fst (map (fun i => let h := first + Z.of_nat i * HOUR in
                                   (h, count_occ Z.eq_dec hours h)) (seq 0 n))
            = map (fun i => first + Z.of_nat i * HOUR) (seq 0 n))
    by (rewrite map_map; reflexivity).
  unfold tallies. cbv zeta in Hkeys. rewrite Hkeys.
  split; [|split].
  - apply dense_points_ascend.
  - intros k c Hin. apply in_map_iff in Hin. destruct Hin as [i [Heq _]].
    cbv zeta in Heq. now inversion Heq.
  - intros h Hin.
    assert (Hlo : first <= h).
    { inversion Hs as [|? ? _ Hall]; subst.
      destruct Hin as [<-|Hin]; [lia|].
      rewrite Forall_forall in Hall. now apply Hall. }
    assert (Hhi : h <= final) by now apply sorted_below_last.
    rewrite Forall_forall in Hal.
    destruct (Hal h Hin) as [q Hq].
    destruct (Hal first (or_introl eq_refl)) as [q0 Hq0].
    apply in_map_iff. exists (Z.to_nat (q - q0)). split.
    + unfold HOUR in *. rewrite Z2Nat.id; lia.
    + apply in_seq. split; [lia|]. simpl. unfold n.
      assert (q - q0 <= (final - first) / HOUR).
      { apply Z.div_le_lower_bound; unfold HOUR in *; lia. }
      assert (0 <= q - q0) by (unfold HOUR in *; lia).
      lia.
Qed.

Lemma running_times counts : forall sofar,
  map time (running sofar counts) = map fst counts.
Proof.
  induction counts as [|[h n] counts IH]; intros sofar; simpl;
    [reflexivity | now rewrite IH].
Qed.

Lemma running_In counts : forall sofar b,
  In b (running sofar counts) -> In (time b, count b) counts.
Proof.
  induction counts as [|[h n] counts IH]; intros sofar b Hin; [contradiction|].
  destruct Hin as [<-|Hin]; [now left | right; now apply (IH _ _ Hin)].
Qed.

Lemma count_upto (hours : list Z) (k : Z) :
  (length (filter (fun h => (h <? k)%Z) hours) + count_occ Z.eq_dec hours k)%nat
  = length (filter (fun h => h <=? k) hours).
Proof.
  induction hours as [|a l IH]; simpl; [reflexivity|].
  destruct (Z.eq_dec a k) as [->|Hne].
  - rewrite Z.ltb_irrefl, Z.leb_refl. simpl. lia.
  - destruct (Z.ltb_spec a k), (Z.leb_spec a k); simpl; lia.
Qed.

Lemma filter_none {A : Type} (f : A -> bool) (l : list A) :
  (forall x, In x l -> f x = false) -> filter f l = [].
Proof.
  induction l as [|a l IH]; intros H; simpl; [reflexivity|].
  rewrite (H a (or_introl eq_refl)). apply IH. intros x Hx. apply H. now right.
Qed.

Lemma filter_map_length {A B : Type} (f : B -> bool) (g : A -> B) (l : list A) :
  length (filter f (map g l)) = length (filter (fun x => f (g x)) l).
Proof.
  induction l as [|a l IH]; simpl; [reflexivity|].
  destruct (f (g a)); simpl; now rewrite IH.
Qed.

Lemma filter_perm_length {A : Type} (f : A -> bool) (l l' : list A) :
  Permutation l l' -> length (filter f l) = length (filter f l').
Proof.
  induction 1 as [|x l l' _ IH|x y l|l l' l'' _ IH1 _ IH2]; simpl.
  - reflexivity.
  - destruct (f x); simpl; now rewrite IH.
  - destruct (f x), (f y); reflexivity.
  - now rewrite IH1.
Qed.

(** The running total at a bucket is the number of hours up to the
    bucket's: [sofar] counts the hours below all keys still to come. *)
Lemma running_upto hours counts : forall sofar,
  StronglySorted Z.lt (map fst counts) ->
  (forall k n, In (k, n) counts -> n = count_occ Z.eq_dec hours k) ->
  (forall h, In h hours ->
             In h (map fst counts) \/ Forall (Z.lt h) (map fst counts)) ->
  sofar = length (filter (fun h => forallb (Z.ltb h) (map fst counts)) hours) ->
  forall b, In b (running sofar counts) ->
            cumulative b = length (filter (fun h => h <=? time b) hours).
Proof.
  induction counts as [|[k n] counts IH]; intros sofar Hs Hc Hcov Hsofar b Hin;
    [contradiction|].
  apply StronglySorted_inv in Hs. destruct Hs as [Hs Hall]. simpl in Hall.
  assert (Habove : forall k', In k' (map fst counts) -> k < k')
    by (rewrite Forall_forall in Hall; exact Hall).
  assert (Hhead : (sofar + n)%nat = length (filter (fun h => h <=? k) hours)).
  { rewrite (Hc k n (or_introl eq_refl)), <- count_upto. f_equal.
    rewrite Hsofar. f_equal. apply filter_ext_in. intros h Hh. simpl.
    destruct (Z.ltb_spec h k); simpl; [|reflexivity].
    apply forallb_forall. intros k' Hk'. apply Z.ltb_lt.
    specialize (Habove k' Hk'). lia. }
  destruct Hin as [<-|Hin]; [exact Hhead|].
  apply (IH (sofar + n)%nat); auto.
  - intros k' n' H'. apply Hc. now right.
  - intros h Hh. destruct (Hcov h Hh) as [[<-|Hk]|Hbelow].
    + right. exact Hall.
    + now left.
    + right. now inversion Hbelow.
  - rewrite Hhead. f_equal. apply filter_ext_in. intros h Hh.
    destruct (Z.leb_spec h k) as [Hle|Hgt]; symmetry.
    + apply forallb_forall. intros k' Hk'. apply Z.ltb_lt.
      specialize (Habove k' Hk'). lia.
    + destruct (forallb (Z.ltb h) (map fst counts)) eqn:E; [|reflexivity].
      rewrite forallb_forall in E.
      destruct (Hcov h Hh) as [[Heq|Hk]|Hbelow].
      * simpl in Heq. lia.
      * specialize (E h Hk). apply Z.ltb_lt in E. lia.
      * inversion Hbelow; subst. simpl in *. lia.
Qed.

(** What the buckets computed from a tally say. *)
Lemma tallied_buckets counts hours :
  tallies counts hours ->
  StronglySorted Z.lt (map time (running 0 counts)) /\
  (forall b, In b (running 0 counts) ->
             count b = count_occ Z.eq_dec hours (time b) /\
             cumulative b = length (filter (fun h => h <=? time b) hours)) /\
  (forall h, In h hours -> In h (map time (running 0 counts))).
Proof.
  intros (Hs & Hc & Hcov). rewrite running_times.
  split; [exact Hs | split; [|exact Hcov]].
  intros b Hb. split; [apply Hc; now apply (running_In _ _ _ Hb)|].
  apply (running_upto hours counts 0%nat); auto.
  rewrite filter_none; [reflexivity|].
  intros h Hh. destruct (forallb (Z.ltb h) (map fst counts)) eqn:E; [|reflexivity].
  rewrite forallb_forall in E. specialize (E h (Hcov h Hh)).
  apply Z.ltb_lt in E. lia.
Qed.
End SalesFacts.

Lemma hours_tallied (d : Sales.Density) (timestamps : list Z) :
  let hours := map Sales.hourStart (Sales.sort_times timestamps) in
  tallies (match d with
           | Sales.Sparse => Sales.sparse hours
           | Sales.Dense => Sales.dense hours
           end) hours.
Proof.
  intros hours.
  assert (Hs : StronglySorted Z.le hours)
    by apply hours_sorted, sort_times_sorted.
  destruct d; [now apply sparse_tallies | apply dense_tallies; [exact Hs|]].
  unfold hours. rewrite Forall_map. apply Forall_forall.
  intros t _. eexists. apply hourStart_aligned.
Qed.

Lemma hours_total (d : Sales.Density) (timestamps : list Z) :
  let hours := map Sales.hourStart (Sales.sort_times timestamps) in
  list_sum (map snd (match d with
                     | Sales.Sparse => Sales.sparse hours
                     | Sales.Dense => Sales.dense hours
                     end))
  = length timestamps.
Proof.
  intros hours.
  assert (Hlen : length hours = length timestamps).
  { unfold hours. rewrite length_map.
    apply Permutation_length, sort_times_perm. }
  rewrite <- Hlen. destruct d.
  - unfold Sales.sparse. now rewrite sparse_total.
  - apply dense_total.
    + apply hours_sorted, sort_times_sorted.
    + unfold hours. rewrite Forall_map. apply Forall_forall.
      intros t _. eexists. apply hourStart_aligned.
Qed.

Lemma filter_length_mono {A : Type} (f g : A -> bool) (l : list A) :
  (forall x, f x = true -> g x = true) ->
  length (filter f l) <= length (filter g l).
Proof.
  intros H. induction l as [|a l IH]; simpl; [lia|].
  destruct (f a) eqn:E.
  - rewrite (H a E). simpl. lia.
  - destruct (g a); simpl; lia.
Qed.

(** The buckets of the engine, in terms of the sales: the bucket times
    strictly ascend, each bucket counts the sales of its hour, its
    cumulative value is the number of sales in or before its hour, and
    the hour of every sale has a bucket. *)
Lemma buckets_of_sales (d : Sales.Density) (timestamps : list Z) :
  let r := Sales.salesBuckets d timestamps in
  StronglySorted Z.lt (map Sales.time (Sales.data r)) /\
  (forall b, In b (Sales.data r) ->
     Sales.count b
     = count_occ Z.eq_dec (map Sales.hourStart timestamps) (Sales.time b) /\
     Sales.cumulative b
     = length (filter (fun t => (Sales.hourStart t <=? Sales.time b)%Z) timestamps)) /\
  (forall t, In t timestamps ->
             In (Sales.hourStart t) (map Sales.time (Sales.data r))).
Proof.
  intros r.
  pose proof (sort_times_perm timestamps) as Hperm.
  destruct (tallied_buckets _ _ (hours_tallied d timestamps)) as (Hs & Hb & Hcov).
  split; [exact Hs | split].
  - intros b Hin. destruct (Hb b Hin) as [Hcount Hcum]. split.
    + rewrite Hcount. apply Permutation_count_occ.
      now apply Permutation_map.
    + rewrite Hcum, filter_map_length. now apply filter_perm_length.
  - intros t Hin. apply Hcov. apply in_map.
    apply (Permutation_in t (Permutation_sym Hperm) Hin).
Qed.

(** C7. For either bucket sequence, sparse or dense, and every input.
    Chronological order: the bucket times strictly ascend along the
    sequence, each bucket counts the sales of its hour, and the hour of
    every sale has a bucket.  The cumulative value of a bucket is the
    number of sales in or before its hour; so of two buckets the later
    one never has the smaller cumulative value, and the cumulative values
    never decrease along the sequence.  The last one equals the number of
    sales, and so does [totalTickets]; there is no bucket exactly when
    there is no sale, and then [totalTickets] is 0; a single sale gives a
    single bucket with count and cumulative 1. *)
Theorem cumulative_is_a_running_total :
  forall (d : Sales.Density) (timestamps : list Z),
    let r := Sales.salesBuckets d timestamps in
    StronglySorted Z.lt (map Sales.time (Sales.data r)) /\
    (forall b, In b (Sales.data r) ->
       Sales.count b
       = count_occ Z.eq_dec (map Sales.hourStart timestamps) (Sales.time b) /\
       Sales.cumulative b
       = length (filter (fun t => (Sales.hourStart t <=? Sales.time b)%Z)
                        timestamps)) /\
    (forall t, In t timestamps ->
               In (Sales.hourStart t) (map Sales.time (Sales.data r))) /\
    (forall b1 b2, In b1 (Sales.data r) -> In b2 (Sales.data r) ->
                   (Sales.time b1 <= Sales.time b2)%Z ->
                   Sales.cumulative b1 <= Sales.cumulative b2) /\
    Sorted le (map Sales.cumulative (Sales.data r)) /\
    last (map Sales.cumulative (Sales.data r)) 0 = length timestamps /\
    Sales.totalTickets r = length timestamps /\
    (Sales.data r = [] <-> timestamps = []) /\
    Sales.salesBuckets d []
    = {| Sales.data := []; Sales.totalTickets := 0 |} /\
    (forall t,
        Sales.salesBuckets d [t]
        = {| Sales.data := [ {| Sales.time := Sales.hourStart t;
                                Sales.count := 1;
                                Sales.cumulative := 1 |} ];
             Sales.totalTickets := 1 |}).
Proof.
  intros d timestamps r.
  assert (Hlast : last (map Sales.cumulative (Sales.data r)) 0 = length timestamps).
  { unfold r, Sales.salesBuckets. simpl.
    rewrite running_last. simpl. apply hours_total. }
  destruct (buckets_of_sales d timestamps) as (Htimes & Hbucket & Hcover).
  split; [exact Htimes | split; [exact Hbucket | split; [exact Hcover | split]]].
  { intros b1 b2 H1 H2 Hle.
    rewrite (proj2 (Hbucket b1 H1)), (proj2 (Hbucket b2 H2)).
    apply filter_length_mono. intros t Ht.
    apply Z.leb_le in Ht. apply Z.leb_le. lia. }
  split; [|split; [exact Hlast | split; [exact Hlast | split; [|split]]]].
  - unfold r, Sales.salesBuckets. simpl. apply running_nondecreasing.
  - split.
    + intros Hnil. rewrite Hnil in Hlast. simpl in Hlast.
      now destruct timestamps.
    + intros ->. unfold r. now destruct d.
  - now destruct d.
  - intros t. destruct d; [reflexivity|].
    unfold Sales.salesBuckets, Sales.dense. simpl.
    rewrite Z.sub_diag. simpl. rewrite Z.add_0_r.
    destruct (Z.eq_dec (Sales.hourStart t) (Sales.hourStart t)); [reflexivity|].
    congruence.
Qed.

(** Scenario 3 of the specification: sales at 10:05, 10:40 and 11:02. *)
Example sales_of_scenario_3 :
  forall d,
    Sales.salesBuckets d [ 38400000; 36300000; 39720000 ]%Z
    = {| Sales.data :=
           [ {| Sales.time := 36000000; Sales.count := 2; Sales.cumulative := 2 |};
             {| Sales.time := 39600000; Sales.count := 1; Sales.cumulative := 3 |} ];
         Sales.totalTickets := 3 |}.
Proof. intros []; reflexivity. Qed.

(* ===================================================================== *)
(** * The waitlist route: statuses, bodies, messages *)
(* ===================================================================== *)

Lemma authorized_result session client :
  authorized (verifyAdminRequest session client) = true ->
  exists email, verifyAdminRequest session client = Authorized email client.
Proof.
  unfold verifyAdminRequest.
  destruct (userError session); [discriminate|].
  destruct (truthy (email_of (user session))) as [email|]; [|discriminate].
  destruct (roles_single client email) as [r|]; [|discriminate].
  destruct (roles r) as [rs|]; [|discriminate].
  destruct (includes (split "," rs) "admin"); [|discriminate].
  intros _. now exists email.
Qed.

Lemma verification_cases session client :
  (exists message,
      verifyAdminRequest session client = Unauthorized message /\
      In message route_messages) \/
  (exists email, verifyAdminRequest session client = Authorized email client).
Proof.
  destruct (authorized (verifyAdminRequest session client)) eqn:Ha.
  - right. now apply authorized_result.
  - left. destruct (unauthorized_message session client Ha) as [m [Hv Hm]].
    exists m. split; [exact Hv|].
    destruct Hm as [[-> _]|[-> _]]; simpl; auto.
Qed.

Lemma GET_shape_of isValidUUID session client eventIdParam :
  let r := GET isValidUUID session client eventIdParam in
  In (status r) [ 200; 400; 401; 404; 500 ] /\
  match body r with
  | ErrorBody message => status r <> 200 /\ In message route_messages
  | SingleBody _ entries n =>
      status r = 200 /\ n = length entries /\
      exists eventId, truthy eventIdParam = Some eventId /\
                      isValidUUID eventId = true
  | GroupedBody _ => status r = 200 /\ truthy eventIdParam = None
  end.
Proof.
  intros r.
  split; unfold r, GET.
  - destruct (verifyAdminRequest session client) as [err|email ac]; simpl; [auto|].
    destruct (truthy eventIdParam) as [eventId|].
    + destruct (isValidUUID eventId); simpl; [|auto].
      destruct (error (events_single ac eventId)); simpl; [auto 6|].
      destruct (data (events_single ac eventId)); simpl; [|auto 6].
      destruct (error (waitlist_of_event ac eventId)); simpl; [auto 6|].
      destruct (data (waitlist_of_event ac eventId)); simpl; auto.
    + destruct (error (waitlist_joined ac)); simpl; [auto 6|].
      destruct (groupByEvent (data (waitlist_joined ac))); simpl; auto 6.
  - destruct (verification_cases session client) as [[m [-> Hm]]|[email ->]].
    + simpl. split; [discriminate | exact Hm].
    + destruct (truthy eventIdParam) as [eventId|] eqn:Hp.
      * destruct (isValidUUID eventId) eqn:Hok; simpl.
        2:{ split; [discriminate | simpl; auto]. }
        destruct (error (events_single client eventId)); simpl.
        { split; [discriminate | simpl; auto]. }
        destruct (data (events_single client eventId)); simpl.
        2:{ split; [discriminate | simpl; auto]. }
        destruct (error (waitlist_of_event client eventId)); simpl.
        { split; [discriminate | simpl; auto 6]. }
        destruct (data (waitlist_of_event client eventId)); simpl;
          (split; [reflexivity | split; [reflexivity | now exists eventId]]).
      * destruct (error (waitlist_joined client)); simpl.
        { split; [discriminate | simpl; auto 6]. }
        destruct (groupByEvent (data (waitlist_joined client))); simpl.
        -- now split.
        -- split; [discriminate | simpl; auto 7].
Qed.

(** The shape of every response of the route. The status is one of 200,
    400, 401, 404 and 500. An error body comes with a status other than
    200 and carries one of the six messages written in the route and in
    the verification, never a text of the database; a single-event body
    comes with 200, for a well-formed [eventId], and its [totalCount] is
    the length of its waitlist; a grouped body comes with 200 and only
    when no [eventId] is given; an empty [eventId] is as good as none. *)
Theorem GET_response_shape :
  forall isValidUUID session client eventIdParam,
    let r := GET isValidUUID session client eventIdParam in
    In (status r) [ 200; 400; 401; 404; 500 ] /\
    match body r with
    | ErrorBody message => status r <> 200 /\ In message route_messages
    | SingleBody _ entries n =>
        status r = 200 /\ n = length entries /\
        exists eventId, truthy eventIdParam = Some eventId /\
                        isValidUUID eventId = true
    | GroupedBody _ => status r = 200 /\ truthy eventIdParam = None
    end /\
    GET isValidUUID session client (Some "") = GET isValidUUID session client None.
Proof.
  intros isValidUUID session client eventIdParam r.
  destruct (GET_shape_of isValidUUID session client eventIdParam) as [H1 H2].
  repeat split; assumption.
Qed.

(** The order of the route's checks, as a table of statuses: denial
    before everything, the format of [eventId] before any query, the
    event before its waitlist; without [eventId] a failed query or an
    exception in the grouping gives 500. The five cases exclude each
    other and leave nothing out. *)
Theorem GET_status_table :
  forall isValidUUID session client eventIdParam,
    let r := GET isValidUUID session client eventIdParam in
    let allowed := authorized (verifyAdminRequest session client) in
    (allowed = false -> status r = 401) /\
    (forall eventId,
        allowed = true -> truthy eventIdParam = Some eventId ->
        isValidUUID eventId = false -> status r = 400) /\
    (forall eventId,
        allowed = true -> truthy eventIdParam = Some eventId ->
        isValidUUID eventId = true ->
        error (events_single client eventId) <> None
        \/ data (events_single client eventId) = None ->
        status r = 404) /\
    (forall eventId event,
        allowed = true -> truthy eventIdParam = Some eventId ->
        isValidUUID eventId = true ->
        error (events_single client eventId) = None ->
        data (events_single client eventId) = Some event ->
        status r = match error (waitlist_of_event client eventId) with
                   | Some _ => 500
                   | None => 200
                   end) /\
    (allowed = true -> truthy eventIdParam = None ->
     status r = match error (waitlist_joined client),
                      groupByEvent (data (waitlist_joined client)) with
                | None, Ok _ => 200
                | _, _ => 500
                end).
Proof.
  intros isValidUUID session client eventIdParam r allowed.
  unfold r, allowed, GET. repeat split.
  - intros Ha.
    destruct (verifyAdminRequest session client); [reflexivity | discriminate].
  - intros eventId Ha Hp Hbad.
    destruct (authorized_result _ _ Ha) as [email ->]. now rewrite Hp, Hbad.
  - intros eventId Ha Hp Hok Hmiss.
    destruct (authorized_result _ _ Ha) as [email ->]. rewrite Hp, Hok. simpl.
    destruct (error (events_single client eventId)); [reflexivity|].
    destruct Hmiss as [H|H]; [congruence | now rewrite H].
  - intros eventId ev Ha Hp Hok Herr Hdata.
    destruct (authorized_result _ _ Ha) as [email ->].
    rewrite Hp, Hok. simpl. rewrite Herr, Hdata.
    destruct (error (waitlist_of_event client eventId)); [reflexivity|].
    now destruct (data (waitlist_of_event client eventId)).
  - intros Ha Hp.
    destruct (authorized_result _ _ Ha) as [email ->]. rewrite Hp.
    destruct (error (waitlist_joined client)); [reflexivity|].
    now destruct (groupByEvent (data (waitlist_joined client))).
Qed.

Lemma verification_same_answers session c1 c2 :
  (forall email, roles_single c1 email = roles_single c2 email) ->
  match verifyAdminRequest session c1, verifyAdminRequest session c2 with
  | Unauthorized m1, Unauthorized m2 => m1 = m2
  | Authorized e1 a1, Authorized e2 a2 => e1 = e2 /\ a1 = c1 /\ a2 = c2
  | _, _ => False
  end.
Proof.
  intros Hroles. unfold verifyAdminRequest.
  destruct (userError session); [reflexivity|].
  destruct (truthy (email_of (user session))) as [email|]; [|reflexivity].
  rewrite <- Hroles.
  destruct (roles_single c1 email) as [r|]; [|reflexivity].
  destruct (roles r) as [rs|]; [|reflexivity].
  destruct (includes (split "," rs) "admin"); auto.
Qed.

(** The route reads of a failed query nothing but the fact that it
    failed: two databases that give the same roles, fail on the same
    queries and agree on the data of those that succeed get the same
    response, whatever the error texts and whatever a failed query
    carries as data. *)
Theorem GET_ignores_error_text :
  forall isValidUUID session c1 c2 eventIdParam,
    same_answers c1 c2 ->
    GET isValidUUID session c1 eventIdParam
    = GET isValidUUID session c2 eventIdParam.
Proof.
  intros isValidUUID session c1 c2 eventIdParam (Hroles & Hev & Hwl & Hj).
  pose proof (verification_same_answers session c1 c2 Hroles) as Hv.
  unfold GET.
  destruct (verifyAdminRequest session c1) as [m1|e1 a1],
           (verifyAdminRequest session c2) as [m2|e2 a2]; try contradiction.
  - now subst.
  - destruct Hv as (_ & -> & ->).
    destruct (truthy eventIdParam) as [eventId|].
    + destruct (isValidUUID eventId); simpl; [|reflexivity].
      specialize (Hev eventId). specialize (Hwl eventId).
      unfold same_outcome in Hev, Hwl.
      destruct (error (events_single c1 eventId)),
               (error (events_single c2 eventId)); try contradiction;
        [reflexivity|].
      rewrite Hev.
      destruct (data (events_single c2 eventId)); [|reflexivity].
      destruct (error (waitlist_of_event c1 eventId)),
               (error (waitlist_of_event c2 eventId)); try contradiction;
        [reflexivity|].
      now rewrite Hwl.
    + unfold same_outcome in Hj.
      destruct (error (waitlist_joined c1)), (error (waitlist_joined c2));
        try contradiction; [reflexivity|].
      now rewrite Hj.
Qed.

(** The theorem at two databases that differ in the text and in the data
    of a failed event query. *)
Lemma GET_ignores_error_text_sample :
  GET shape_test (signed_in "admin@example.org")
      (sample_client roles_table sample_rows) (Some event_b)
  = GET shape_test (signed_in "admin@example.org") reworded_client (Some event_b).
Proof.
  apply (GET_ignores_error_text shape_test (signed_in "admin@example.org")
           (sample_client roles_table sample_rows) reworded_client (Some event_b)).
  unfold same_answers, same_outcome. simpl. repeat split.
  - intros id. now destruct (String.eqb id event_a).
  - intros id. now destruct (String.eqb id event_a).
Defined.

(* ===================================================================== *)
(** * The page, the route and the viewer together *)
(* ===================================================================== *)

Lemma page_list_is_route_leaderboard_aux isValidUUID session client :
  initial_waitlist (getInitialWaitlist session client)
  = leaderboard_of (GET isValidUUID session client None) /\
  isGrouped (getInitialWaitlist session client) = true.
Proof.
  unfold getInitialWaitlist, GET, leaderboard_of.
  destruct (verifyAdminRequest session client) as [m|email ac]; simpl;
    [repeat split|].
  destruct (error (waitlist_joined ac)); simpl; [repeat split|].
  destruct (groupByEvent (data (waitlist_joined ac))); simpl; repeat split.
Qed.

(** The list the page starts with is the leaderboard the route returns
    for the same session and database when no event is selected, and it
    is empty whenever the route answers with an error. *)
Theorem page_list_is_route_leaderboard :
  forall isValidUUID session client,
    initial_waitlist (getInitialWaitlist session client)
    = leaderboard_of (GET isValidUUID session client None) /\
    isGrouped (getInitialWaitlist session client) = true /\
    (status (GET isValidUUID session client None) <> 200 ->
     initial_waitlist (getInitialWaitlist session client) = []).
Proof.
  intros isValidUUID session client.
  unfold getInitialWaitlist, GET, leaderboard_of.
  destruct (verifyAdminRequest session client) as [m|email ac]; simpl;
    [repeat split|].
  destruct (error (waitlist_joined ac)); simpl; [repeat split|].
  destruct (groupByEvent (data (waitlist_joined ac))); simpl; repeat split.
  intros H. now elim H.
Qed.

Lemma settle_route_error s r message :
  body r = ErrorBody message -> status r <> 200 ->
  In message route_messages -> In (status r) [ 200; 400; 401; 404; 500 ] ->
  Viewer.fetch_settle s (delivered r) = Viewer.fail s message.
Proof.
  intros Hb Hs Hm Hin.
  assert (Hok : Viewer.ok (delivered r) = false).
  { unfold delivered. simpl Viewer.ok. simpl in Hin.
    destruct Hin as [H|[H|[H|[H|[H|[]]]]]]; rewrite <- H in *;
      [congruence | reflexivity..]. }
  unfold Viewer.fetch_settle. rewrite Hok.
  change (Viewer.parsed (delivered r)) with (@inr string JsonBody (body r)).
  rewrite Hb. simpl in Hm |- *.
  destruct Hm as [H|[H|[H|[H|[H|[H|[]]]]]]]; now rewrite <- H.
Qed.

(** Every answer of the route that is not a 200 reaches the user of the
    viewer word for word: the viewer shows the body's message as its
    error, stops loading, and keeps the list, the mode and the selection
    it had. *)
Theorem route_errors_surface_in_viewer :
  forall isValidUUID session client eventIdParam s,
    let r := GET isValidUUID session client eventIdParam in
    status r <> 200 ->
    exists message,
      body r = ErrorBody message /\
      Viewer.fetch_settle s (delivered r)
      = {| Viewer.shown := Viewer.shown s;
           Viewer.selectedEventId := Viewer.selectedEventId s;
           Viewer.isLoading := false;
           Viewer.errorMessage := Some message;
           Viewer.grouped := Viewer.grouped s |}.
Proof.
  intros isValidUUID session client eventIdParam s r Hs.
  destruct (GET_shape_of isValidUUID session client eventIdParam)
    as [Hin Hbody].
  fold r in Hin, Hbody.
  destruct (body r) as [message|ev wl n|lb] eqn:Hb.
  - exists message. split; [reflexivity|].
    destruct Hbody as [_ Hm].
    now rewrite (settle_route_error s r message Hb Hs Hm Hin).
  - destruct Hbody as [H _]. contradiction.
  - destruct Hbody as [H _]. contradiction.
Qed.

(** The theorem at a request without session. *)
Lemma route_errors_surface_sample :
  exists message,
    body (GET shape_test signed_out (sample_client roles_table sample_rows) None)
    = ErrorBody message /\
    Viewer.fetch_settle (Viewer.view sample_viewer)
      (delivered (GET shape_test signed_out
                      (sample_client roles_table sample_rows) None))
    = {| Viewer.shown := Viewer.shown (Viewer.view sample_viewer);
         Viewer.selectedEventId := Viewer.selectedEventId (Viewer.view sample_viewer);
         Viewer.isLoading := false;
         Viewer.errorMessage := Some message;
         Viewer.grouped := Viewer.grouped (Viewer.view sample_viewer) |}.
Proof.
  apply (route_errors_surface_in_viewer shape_test signed_out
           (sample_client roles_table sample_rows) None
           (Viewer.view sample_viewer)).
  discriminate.
Defined.

Lemma settle_route_leaderboard s r leaderboard :
  body r = GroupedBody leaderboard -> status r = 200 ->
  Viewer.fetch_settle s (delivered r)
  = Viewer.display s (Viewer.Groups leaderboard) true.
Proof.
  intros Hb Hs. unfold Viewer.fetch_settle, delivered. simpl.
  now rewrite Hb, Hs.
Qed.

(** When the request that the viewer issues on mount resolves, the
    viewer shows what the page rendered: for every session and database
    (the same for the page and the route), the list is the page's list,
    the mode is grouped, nothing is in flight or loading, and an error is
    shown exactly when the route did not answer 200. *)
Theorem first_fetch_agrees_with_page :
  forall isValidUUID session client eventsQuery,
    let props := AdminWaitlistPage session client eventsQuery in
    let after := Viewer.run (route_server isValidUUID session client)
                   [ Viewer.Resolve 0 ] (mounted props) in
    Viewer.inflight (mounted props) = [ "" ] /\
    Viewer.isLoading (Viewer.view (mounted props)) = true /\
    Viewer.shown (Viewer.view after) = Viewer.Groups (initialWaitlist props) /\
    Viewer.grouped (Viewer.view after) = true /\
    Viewer.inflight after = [] /\
    Viewer.isLoading (Viewer.view after) = false /\
    (Viewer.errorMessage (Viewer.view after) = None <->
     status (GET isValidUUID session client None) = 200).
Proof.
  intros isValidUUID session client eventsQuery props after.
  destruct (page_list_is_route_leaderboard_aux isValidUUID session client)
    as [Hlist Hgrouped].
  assert (Hprops : mounted props
                   = Viewer.mount
                       (Viewer.Groups
                          (leaderboard_of (GET isValidUUID session client None)))
                       true None).
  { unfold mounted, props, AdminWaitlistPage. simpl. now rewrite Hlist, Hgrouped. }
  assert (Hiw : initialWaitlist props
                = leaderboard_of (GET isValidUUID session client None))
    by exact Hlist.
  unfold after. rewrite Hiw, Hprops. clear Hprops Hiw after props.
  unfold Viewer.run, Viewer.mount, Viewer.fetch_start, route_server. simpl.
  change (GET isValidUUID session client (Some ""))
    with (GET isValidUUID session client None).
  destruct (GET_shape_of isValidUUID session client None) as [Hin Hbody].
  cbv zeta in Hin, Hbody.
  set (r := GET isValidUUID session client None) in *.
  destruct (body r) as [message|ev wl n|lb] eqn:Hb.
  - destruct Hbody as [Hs Hm].
    rewrite (settle_route_error _ r message Hb Hs Hm Hin).
    unfold leaderboard_of. rewrite Hb. simpl.
    repeat split; try discriminate. intros H. contradiction.
  - destruct Hbody as (_ & _ & eventId & Hp & _). discriminate.
  - destruct Hbody as [Hs _].
    rewrite (settle_route_leaderboard _ r lb Hb Hs).
    unfold leaderboard_of. rewrite Hb. simpl.
    repeat split; auto.
Qed.

(* ===================================================================== *)
(** * The viewer: what is rendered *)
(* ===================================================================== *)

Lemma fetch_settle_coherent s response :
  WaitlistView.coherent s ->
  WaitlistView.coherent (Viewer.fetch_settle s response).
Proof.
  unfold WaitlistView.coherent, Viewer.fetch_settle. intros H.
  destruct (negb (Viewer.ok response)).
  - destruct (Viewer.parsed response) as [msg|[e|ev wl n|lb]]; exact H.
  - destruct (Viewer.contentType response) as [ct|]; [|exact H].
    destruct (negb (Viewer.mentions_json ct)); [exact H|].
    destruct (Viewer.parsed response) as [msg|[e|ev wl n|lb]]; simpl;
      [exact H | exact I | now destruct wl | now destruct lb].
Qed.

Lemma step_coherent server c e :
  WaitlistView.coherent (Viewer.view c) ->
  WaitlistView.coherent (Viewer.view (Viewer.step server c e)).
Proof.
  intros H. destruct e as [eventId| |n]; simpl.
  - destruct (String.eqb eventId (Viewer.selectedEventId (Viewer.view c)));
      exact H.
  - destruct (Viewer.isLoading (Viewer.view c)); exact H.
  - destruct (nth_error (Viewer.inflight c) n); [|exact H].
    simpl. now apply fetch_settle_coherent.
Qed.

Lemma run_coherent server events c :
  WaitlistView.coherent (Viewer.view c) ->
  WaitlistView.coherent (Viewer.view (Viewer.run server events c)).
Proof.
  revert c. unfold Viewer.run.
  induction events as [|e events IH]; intros c H; simpl; [exact H|].
  apply IH. now apply step_coherent.
Qed.

Lemma render_coherent events s :
  WaitlistView.coherent s ->
  WaitlistView.body (WaitlistView.render events s) <> WaitlistView.Miscast.
Proof.
  unfold WaitlistView.coherent, WaitlistView.render.
  destruct (Viewer.shown s) as [[|g gs]|[|w ws]]; simpl; intros H.
  - rewrite andb_false_r. simpl. now destruct (Viewer.isLoading s).
  - rewrite H. simpl. now destruct (Viewer.isLoading s).
  - rewrite andb_false_r. simpl. now destruct (Viewer.isLoading s).
  - rewrite H. simpl. now destruct (Viewer.isLoading s).
Qed.

(** The viewer never renders a list at the wrong type, against a server
    that keeps to the shapes of the route's bodies: every body it sends
    is an error body, a single-event body whose [waitlist] is a list of
    entries, or a grouped body whose [leaderboard] is a list of groups
    (the type [JsonBody], which is what [GET] builds); status, headers
    and unparseable bodies are arbitrary. Mounted on groups in grouped
    mode or on entries in single-event mode, after any sequence of
    selections, refreshes and resolutions against such a server, the mode
    flag and the kind of the list agree, so the grouped view only ever
    reads groups and the single-event view only ever reads entries. *)
Theorem viewer_never_miscasts :
  forall (server : string -> Viewer.HttpResponse) events navEvents
         initialEventId initial,
    let start :=
      match initial with
      | inl groups => Viewer.mount (Viewer.Groups groups) true initialEventId
      | inr entries => Viewer.mount (Viewer.Entries entries) false initialEventId
      end in
    let s := Viewer.view (Viewer.run server events start) in
    WaitlistView.coherent s /\
    WaitlistView.body (WaitlistView.render navEvents s) <> WaitlistView.Miscast.
Proof.
  intros server events navEvents initialEventId initial start s.
  assert (H : WaitlistView.coherent s).
  { apply run_coherent. unfold start.
    destruct initial as [[|g gs]|[|w ws]]; reflexivity. }
  split; [exact H | now apply render_coherent].
Qed.

(** A denied visitor of the waitlist page. The page renders an empty
    grouped list and an empty filter; once the viewer's first request has
    resolved, the screen is the single-event view with the empty state
    "No waitlist entries across any events" under the banner with the
    verification's message. *)
Theorem denied_visitor_sees_empty_state :
  forall isValidUUID session client eventsQuery,
    authorized (verifyAdminRequest session client) = false ->
    let props := AdminWaitlistPage session client eventsQuery in
    let after := Viewer.run (route_server isValidUUID session client)
                   [ Viewer.Resolve 0 ] (mounted props) in
    props = {| initialWaitlist := []; initialEvents := [];
               props_isGrouped := true |} /\
    exists message,
      verifyAdminRequest session client = Unauthorized message /\
      WaitlistView.render (initialEvents props) (Viewer.view after)
      = {| WaitlistView.groupedView := false;
           WaitlistView.banner := Some message;
           WaitlistView.body :=
             WaitlistView.EmptyState "No waitlist entries across any events" |}.
Proof.
  intros isValidUUID session client eventsQuery Hdenied props after.
  destruct (unauthorized_message session client Hdenied) as [message [Hv Hm]].
  assert (Hprops : props = {| initialWaitlist := []; initialEvents := [];
                              props_isGrouped := true |}).
  { unfold props, AdminWaitlistPage, getInitialWaitlist, getEvents.
    now rewrite Hv. }
  split; [exact Hprops|].
  exists message. split; [exact Hv|].
  unfold after. rewrite Hprops.
  unfold mounted, Viewer.run, route_server, GET. simpl. rewrite Hv.
  unfold Viewer.fetch_settle, delivered. simpl.
  destruct Hm as [[-> _]|[-> _]]; reflexivity.
Qed.

(** The theorem at a visitor without session. *)
Lemma denied_visitor_sample :
  let props := AdminWaitlistPage signed_out (sample_client roles_table sample_rows)
                 {| data := Some []; error := None |} in
  let after := Viewer.run (route_server shape_test signed_out
                             (sample_client roles_table sample_rows))
                 [ Viewer.Resolve 0 ] (mounted props) in
  props = {| initialWaitlist := []; initialEvents := [];
             props_isGrouped := true |} /\
  exists message,
    verifyAdminRequest signed_out (sample_client roles_table sample_rows)
    = Unauthorized message /\
    WaitlistView.render (initialEvents props) (Viewer.view after)
    = {| WaitlistView.groupedView := false;
         WaitlistView.banner := Some message;
         WaitlistView.body :=
           WaitlistView.EmptyState "No waitlist entries across any events" |}.
Proof.
  apply (denied_visitor_sees_empty_state shape_test signed_out
           (sample_client roles_table sample_rows)
           {| data := Some []; error := None |}).
  reflexivity.
Defined.

(* ===================================================================== *)
(** * More on the grouping loop *)
(* ===================================================================== *)

Lemma valid_rows_app rows more :
  valid_rows (rows ++ more) = valid_rows rows ++ valid_rows more.
Proof.
  induction rows as [|r rows IH]; simpl; [reflexivity|].
  destruct (validate r); simpl; now rewrite IH.
Qed.

Lemma valid_rows_survivors rows :
  valid_rows (filter survives rows) = valid_rows rows.
Proof.
  induction rows as [|r rows IH]; simpl; [reflexivity|].
  unfold survives at 1.
  destruct (validate r) as [v|] eqn:E; simpl; [rewrite E; now f_equal | exact IH].
Qed.

(** Rows that fail a guard are invisible to the loop, whatever the keys
    of the others and also when the loop throws: the outcome is that of
    the surviving rows alone, and a failing row can be removed from, or
    put into, any place of the input without changing it. *)
Theorem malformed_rows_are_invisible :
  forall rows,
    groupByEvent (Some rows) = groupByEvent (Some (filter survives rows)) /\
    (forall before after r,
        rows = before ++ r :: after -> survives r = false ->
        groupByEvent (Some rows) = groupByEvent (Some (before ++ after))).
Proof.
  intros rows. split.
  - simpl. now rewrite !forEach_valid_rows, valid_rows_survivors.
  - intros before after r -> Hr. simpl.
    rewrite !forEach_valid_rows, !valid_rows_app. simpl.
    unfold survives in Hr. now destruct (validate r).
Qed.

Lemma first_rows_prefix vs ws :
  exists extra, first_rows (vs ++ ws) = first_rows vs ++ extra.
Proof.
  induction ws as [|w ws IH] using rev_ind.
  - exists []. now rewrite !app_nil_r.
  - destruct IH as [extra IH]. rewrite app_assoc, first_rows_snoc, IH.
    destruct (existsb (has_key (v_key w)) (vs ++ ws)).
    + now exists extra.
    + exists (extra ++ [w]). now rewrite app_assoc.
Qed.

(** Rows that come later only extend what the earlier rows built: when no
    surviving row has an inherited key, the groups of a longer input keep
    the groups of its beginning in their places, each with the same event
    details and with its waitlist continued, never shortened or
    reordered, and its count raised by the number of entries added. *)
Theorem later_rows_only_extend_groups :
  forall rows more,
    Forall (fun v => own_only (v_key v)) (valid_rows (rows ++ more)) ->
    exists early late newKeys,
      groupByEvent (Some rows) = Ok early /\
      groupByEvent (Some (rows ++ more)) = Ok late /\
      map fst late = map fst early ++ newKeys /\
      forall k g,
        In (k, g) early ->
        exists g' added,
          In (k, g') late /\
          event g' = event g /\
          waitlist g' = waitlist g ++ added /\
          totalCount g' = totalCount g + length added.
Proof.
  intros rows more Hkeys.
  assert (Hearly : Forall (fun v => own_only (v_key v)) (valid_rows rows)).
  { rewrite valid_rows_app in Hkeys. now apply Forall_app in Hkeys. }
  destruct (first_rows_prefix (valid_rows rows) (valid_rows more)) as [extra Hx].
  exists (grouping (valid_rows rows)), (grouping (valid_rows (rows ++ more))),
         (map v_key extra).
  split; [now apply groupByEvent_grouping|].
  split; [now apply groupByEvent_grouping|].
  rewrite valid_rows_app. split.
  - now rewrite !grouping_keys, Hx, map_app.
  - intros k g Hin. unfold grouping in Hin.
    apply in_map_iff in Hin. destruct Hin as [v [[= <- <-] Hv]].
    exists (group_of (valid_rows rows ++ valid_rows more) v),
           (entries_of (valid_rows more) (v_key v)).
    split.
    + unfold grouping. apply in_map_iff. exists v. split; [reflexivity|].
      rewrite Hx. apply in_or_app. now left.
    + unfold group_of, entries_of. simpl.
      rewrite filter_app, map_app, length_app. auto.
Qed.

(** The theorem at the sample rows followed by one more row of the first
    event. *)
Lemma later_rows_sample :
  exists early late newKeys,
    groupByEvent (Some sample_rows) = Ok early /\
    groupByEvent (Some (sample_rows
                        ++ [ sample_row "w4" "dee@example.org" 3 event_b ]))
    = Ok late /\
    map fst late = map fst early ++ newKeys /\
    forall k g,
      In (k, g) early ->
      exists g' added,
        In (k, g') late /\
        event g' = event g /\
        waitlist g' = waitlist g ++ added /\
        totalCount g' = totalCount g + length added.
Proof.
  apply (later_rows_only_extend_groups sample_rows
           [ sample_row "w4" "dee@example.org" 3 event_b ]).
  repeat (constructor; try reflexivity).
Defined.

(* ===================================================================== *)
(** * More on the verification and on what is disclosed *)
(* ===================================================================== *)

Lemma split_nonempty sep s : split sep s <> [].
Proof.
  destruct s as [|c s]; simpl; [discriminate|].
  destruct (Ascii.eqb c sep); [discriminate|].
  destruct (split sep s); discriminate.
Qed.

(** Splitting distributes over joining with the separator. *)
Lemma split_app sep a b :
  split sep (a ++ String sep b)%string = split sep a ++ split sep b.
Proof.
  induction a as [|c a IH]; simpl.
  - now rewrite Ascii.eqb_refl.
  - destruct (Ascii.eqb c sep); [now rewrite IH|].
    rewrite IH. destruct (split sep a) as [|tok toks] eqn:E; [|reflexivity].
    now apply split_nonempty in E.
Qed.

Lemma includes_app xs ys x :
  includes (xs ++ ys) x = includes xs x || includes ys x.
Proof. unfold includes. apply existsb_app. Qed.

(** The place of [admin] in the roles string does not matter: a user
    whose roles record is two lists of roles joined by a comma is
    authorized exactly when [admin] is a role of one of the two lists, so
    are they with the two lists exchanged. *)
Theorem admin_role_position_is_irrelevant :
  forall session c1 c2 email (a b : string),
    userError session = None ->
    truthy (email_of (user session)) = Some email ->
    roles_single c1 email = Some {| roles := Some (a ++ "," ++ b)%string |} ->
    roles_single c2 email = Some {| roles := Some (b ++ "," ++ a)%string |} ->
    authorized (verifyAdminRequest session c1)
    = includes (split "," a) "admin" || includes (split "," b) "admin" /\
    authorized (verifyAdminRequest session c2)
    = authorized (verifyAdminRequest session c1).
Proof.
  intros session c1 c2 email a b Herr Hemail H1 H2.
  assert (Hc1 : authorized (verifyAdminRequest session c1)
                = includes (split "," a) "admin" || includes (split "," b) "admin").
  { unfold verifyAdminRequest. rewrite Herr, Hemail, H1. simpl roles.
    change (a ++ "," ++ b)%string with (a ++ String "," b)%string.
    cbv iota beta. rewrite split_app, includes_app.
    now destruct (includes (split "," a) "admin" || includes (split "," b) "admin"). }
  split; [exact Hc1|]. rewrite Hc1.
  unfold verifyAdminRequest. rewrite Herr, Hemail, H2. simpl roles.
  change (b ++ "," ++ a)%string with (b ++ String "," a)%string.
  cbv iota beta. rewrite split_app, includes_app, orb_comm.
  now destruct (includes (split "," a) "admin" || includes (split "," b) "admin").
Qed.

(** The theorem at a user with the roles [editor] and [admin,press]. *)
Lemma admin_role_position_sample :
  authorized (verifyAdminRequest (signed_in "pat@example.org")
                (sample_client
                   (fun _ => Some {| roles := Some ("editor" ++ "," ++ "admin,press")%string |})
                   sample_rows))
  = includes (split "," "editor") "admin" || includes (split "," "admin,press") "admin"
  /\
  authorized (verifyAdminRequest (signed_in "pat@example.org")
                (sample_client
                   (fun _ => Some {| roles := Some ("admin,press" ++ "," ++ "editor")%string |})
                   sample_rows))
  = authorized (verifyAdminRequest (signed_in "pat@example.org")
                  (sample_client
                     (fun _ => Some {| roles := Some ("editor" ++ "," ++ "admin,press")%string |})
                     sample_rows)).
Proof.
  apply (admin_role_position_is_irrelevant (signed_in "pat@example.org")
           (sample_client
              (fun _ => Some {| roles := Some ("editor" ++ "," ++ "admin,press")%string |})
              sample_rows)
           (sample_client
              (fun _ => Some {| roles := Some ("admin,press" ++ "," ++ "editor")%string |})
              sample_rows)
           "pat@example.org" "editor" "admin,press");
    reflexivity.
Defined.

(** Events are listed for admins only. Whatever [getEvents] returns was
    returned by the events query, without error, to a verified admin; a
    denial, a failed query or a null result give the empty list. The
    tickets page offers the same events as the waitlist page, and starts
    with no ticket and with every count at zero: the total, the scanned,
    the unscanned, the filtered, the standard and the VIP count. *)
Theorem events_are_listed_for_admins_only :
  forall session client eventsQuery,
    (forall e,
        In e (getEvents session client eventsQuery) ->
        authorized (verifyAdminRequest session client) = true /\
        error eventsQuery = None /\
        data eventsQuery = Some (getEvents session client eventsQuery)) /\
    (authorized (verifyAdminRequest session client) = true ->
     forall events,
       error eventsQuery = None -> data eventsQuery = Some events ->
       getEvents session client eventsQuery = events) /\
    snd (@AdminTicketsPage unit session client eventsQuery)
    = initialEvents (AdminWaitlistPage session client eventsQuery) /\
    fst (@AdminTicketsPage unit session client eventsQuery)
    = {| tickets := []; total := 0; scannedCount := 0; unscannedCount := 0;
         filteredCount := 0; standardCount := 0; vipCount := 0 |}.
Proof.
  intros session client eventsQuery. repeat split.
  - revert H. unfold getEvents.
    destruct (verifyAdminRequest session client); [contradiction | reflexivity].
  - revert H. unfold getEvents.
    destruct (verifyAdminRequest session client); [contradiction|].
    destruct (error eventsQuery); [contradiction | reflexivity].
  - revert H. unfold getEvents.
    destruct (verifyAdminRequest session client); [contradiction|].
    destruct (error eventsQuery); [contradiction|].
    destruct (data eventsQuery); [reflexivity | contradiction].
  - intros Ha events He Hd. unfold getEvents.
    destruct (verifyAdminRequest session client); [discriminate|].
    now rewrite He, Hd.
Qed.

(* ===================================================================== *)
(** * The ticket sales chart *)
(* ===================================================================== *)

(** The width of the chart: never under 600 pixels, 50 pixels for every
    data point from the twelfth on, and the chart plots every point of
    the data, in order, with its timestamp, count and running total. *)
Theorem chart_width_law :
  forall dateParts points,
    let w := SalesGraph.chartWidth dateParts points in
    let chart := SalesGraph.chartData dateParts points in
    600 <= w /\
    50 * length points <= w /\
    (length points <= 12 -> w = 600) /\
    (12 <= length points -> w = 50 * length points) /\
    length chart = length points /\
    map SalesGraph.timestamp chart = map SalesGraph.time points /\
    map SalesGraph.soldThisHour chart = map SalesGraph.count points /\
    map SalesGraph.totalSold chart = map SalesGraph.cumulative points.
Proof.
  intros dateParts points w chart.
  assert (Hlen : length chart = length points)
    by (unfold chart, SalesGraph.chartData; apply length_map).
  unfold w, SalesGraph.chartWidth, SalesGraph.MIN_CHART_WIDTH,
    SalesGraph.WIDTH_PER_DATAPOINT.
  fold chart. rewrite Hlen.
  repeat split; try lia;
    unfold chart, SalesGraph.chartData; rewrite map_map; reflexivity.
Qed.

Lemma fill_length pad : pad <> "" ->
  forall n cur, String.length (SalesGraph.fill pad cur n) = n.
Proof.
  intros Hpad. induction n as [|n IH]; intros cur; simpl; [reflexivity|].
  destruct cur as [|c rest]; simpl.
  - destruct pad as [|c rest]; [congruence|]. simpl. now rewrite IH.
  - now rewrite IH.
Qed.

Lemma string_length_app (a b : string) :
  String.length (a ++ b)%string = String.length a + String.length b.
Proof. induction a as [|c a IH]; simpl; [reflexivity | now rewrite IH]. Qed.

(** [padStart] never cuts: the string is kept whole at the end, and with
    a pad string that is not empty the result has the target length
    unless the string is longer already. *)
Lemma padStart_law s targetLength padString :
  (exists filling, SalesGraph.padStart s targetLength padString
                   = (filling ++ s)%string) /\
  (padString <> "" ->
   String.length (SalesGraph.padStart s targetLength padString)
   = Nat.max (String.length s) targetLength).
Proof.
  unfold SalesGraph.padStart.
  destruct (Nat.leb_spec targetLength (String.length s)).
  - split; [now exists ""%string | intros _; lia].
  - destruct (String.eqb_spec padString "") as [->|Hne].
    + split; [now exists ""%string | congruence].
    + split; [eexists; reflexivity|]. intros _.
      rewrite string_length_app, fill_length by exact Hne. lia.
Qed.

(** The clock of a chart label. For an hour below 24 and a minute below
    60 the label ends with exactly five characters, two digits, a colon,
    two digits, and the digits read back as the hour and the minute. *)
Theorem chart_label_clock :
  forall d,
    SalesGraph.hours d < 24 -> SalesGraph.minutes d < 60 ->
    let hhmm := SalesGraph.clock (SalesGraph.hours d) (SalesGraph.minutes d) in
    SalesGraph.formatLabel d
    = (SalesGraph.month d ++ " " ++ Viewer.decimal (SalesGraph.day d) ++ ", "
       ++ hhmm)%string /\
    String.length hhmm = 5 /\
    String.get 2 hhmm = Some ":"%char /\
    JsObject.parse_digits 0 (String.substring 0 2 hhmm)
    = Some (N.of_nat (SalesGraph.hours d)) /\
    JsObject.parse_digits 0 (String.substring 3 2 hhmm)
    = Some (N.of_nat (SalesGraph.minutes d)).
Proof.
  intros d Hh Hm hhmm. split; [reflexivity|].
  unfold hhmm. clear hhmm.
  set (good := fun h m =>
         let c := SalesGraph.clock h m in
         Nat.eqb (String.length c) 5
         && match String.get 2 c with
            | Some x => Ascii.eqb x ":"
            | None => false
            end
         && match JsObject.parse_digits 0 (String.substring 0 2 c) with
            | Some n => N.eqb n (N.of_nat h)
            | None => false
            end
         && match JsObject.parse_digits 0 (String.substring 3 2 c) with
            | Some n => N.eqb n (N.of_nat m)
            | None => false
            end).
  assert (Hall : forallb (fun h => forallb (good h) (seq 0 60)) (seq 0 24) = true)
    by (vm_compute; reflexivity).
  rewrite forallb_forall in Hall.
  specialize (Hall (SalesGraph.hours d)).
  rewrite in_seq in Hall. specialize (Hall (conj (Nat.le_0_l _) Hh)).
  rewrite forallb_forall in Hall.
  specialize (Hall (SalesGraph.minutes d)).
  rewrite in_seq in Hall. specialize (Hall (conj (Nat.le_0_l _) Hm)).
  unfold good in Hall. cbv zeta in Hall.
  apply andb_prop in Hall. destruct Hall as [Hall H4].
  apply andb_prop in Hall. destruct Hall as [Hall H3].
  apply andb_prop in Hall. destruct Hall as [H1 H2].
  apply Nat.eqb_eq in H1.
  destruct (String.get 2 _) as [x|]; [|discriminate].
  destruct (Ascii.eqb_spec x ":"); [subst x | discriminate].
  destruct (JsObject.parse_digits 0 (String.substring 0 2 _)) as [n1|];
    [|discriminate].
  destruct (JsObject.parse_digits 0 (String.substring 3 2 _)) as [n2|];
    [|discriminate].
  apply N.eqb_eq in H3. apply N.eqb_eq in H4. subst.
  repeat split. exact H1.
Qed.

(** The theorem at 9:05 on March 4. *)
Lemma chart_label_clock_sample :
  let d := {| SalesGraph.month := "Mar"; SalesGraph.day := 4;
              SalesGraph.hours := 9; SalesGraph.minutes := 5 |} in
  let hhmm := SalesGraph.clock (SalesGraph.hours d) (SalesGraph.minutes d) in
  SalesGraph.formatLabel d
  = (SalesGraph.month d ++ " " ++ Viewer.decimal (SalesGraph.day d) ++ ", "
     ++ hhmm)%string /\
  String.length hhmm = 5 /\
  String.get 2 hhmm = Some ":"%char /\
  JsObject.parse_digits 0 (String.substring 0 2 hhmm)
  = Some (N.of_nat (SalesGraph.hours d)) /\
  JsObject.parse_digits 0 (String.substring 3 2 hhmm)
  = Some (N.of_nat (SalesGraph.minutes d)).
Proof.
  apply (chart_label_clock
           {| SalesGraph.month := "Mar"; SalesGraph.day := 4;
              SalesGraph.hours := 9; SalesGraph.minutes := 5 |});
    simpl; lia.
Defined.

Lemma truthy_nonempty v m : truthy v = Some m -> m <> "".
Proof.
  unfold truthy. destruct v as [s|]; [|discriminate].
  destruct (String.eqb_spec s ""); [discriminate|]. now intros [= <-].
Qed.

Lemma truthy_some m : m <> "" -> truthy (Some m) = Some m.
Proof. intros H. simpl. now destruct (String.eqb_spec m ""). Qed.

(** What the sales chart shows once its request has resolved. It never
    keeps loading. A response whose body cannot be parsed shows the
    parser's message; a response that is not ok shows the body's error,
    or "Failed to fetch sales data" when the body has none; an ok
    response shows the chart of its data with its [totalTickets] (0 when
    missing), or "no data" when the data is missing or empty. Without
    event id no request is issued and the component stays on "loading". *)
Theorem sales_chart_screens :
  forall dateParts s response,
    let s' := SalesGraph.fetch_settle (SalesGraph.fetch_start s) response in
    SalesGraph.isLoading s' = false /\
    SalesGraph.render dateParts s' <> SalesGraph.Loading /\
    (forall msg,
        SalesGraph.parsed response = inl msg -> msg <> "" ->
        SalesGraph.render dateParts s' = SalesGraph.Failed msg) /\
    (forall result,
        SalesGraph.parsed response = inr result ->
        SalesGraph.ok response = false ->
        SalesGraph.render dateParts s'
        = SalesGraph.Failed
            match truthy (SalesGraph.json_error result) with
            | Some msg => msg
            | None => "Failed to fetch sales data"
            end) /\
    (forall result,
        SalesGraph.parsed response = inr result ->
        SalesGraph.ok response = true ->
        SalesGraph.render dateParts s'
        = match SalesGraph.json_data result with
          | Some (p :: ps) =>
              SalesGraph.Chart
                (SalesGraph.chartData dateParts (p :: ps))
                (SalesGraph.chartWidth dateParts (p :: ps))
                match SalesGraph.json_totalTickets result with
                | Some n => n
                | None => 0
                end
          | _ => SalesGraph.NoData
          end) /\
    SalesGraph.mount "" = (SalesGraph.initial, false) /\
    SalesGraph.render dateParts (fst (SalesGraph.mount "")) = SalesGraph.Loading.
Proof.
  intros dateParts s response s'.
  assert (Hload : SalesGraph.isLoading s' = false).
  { unfold s', SalesGraph.fetch_settle.
    destruct (SalesGraph.parsed response); [reflexivity|].
    now destruct (negb (SalesGraph.ok response)). }
  split; [exact Hload|]. split.
  { unfold SalesGraph.render. rewrite Hload.
    destruct (truthy (SalesGraph.error s')); [discriminate|].
    destruct (SalesGraph.data s'); discriminate. }
  split; [|split; [|split; [|split; reflexivity]]].
  - intros msg Hp Hne. unfold s', SalesGraph.fetch_settle, SalesGraph.render.
    rewrite Hp. simpl SalesGraph.isLoading. cbv iota.
    simpl SalesGraph.error. now rewrite (truthy_some msg Hne).
  - intros result Hp Hok. unfold s', SalesGraph.fetch_settle, SalesGraph.render.
    rewrite Hp, Hok. simpl negb. cbv iota.
    simpl SalesGraph.isLoading. cbv iota. simpl SalesGraph.error.
    destruct (truthy (SalesGraph.json_error result)) as [m|] eqn:E.
    + now rewrite (truthy_some m (truthy_nonempty _ _ E)).
    + reflexivity.
  - intros result Hp Hok. unfold s', SalesGraph.fetch_settle, SalesGraph.render.
    rewrite Hp, Hok. simpl.
    destruct (SalesGraph.json_data result) as [[|p ps]|]; reflexivity.
Qed.

(* ===================================================================== *)
(** * The navigation bar and the storage helper *)
(* ===================================================================== *)

Lemma activeItems_hrefs pathname navItems :
  map Layout.href (Layout.activeItems pathname navItems)
  = filter (String.eqb pathname) (map Layout.href navItems).
Proof.
  unfold Layout.activeItems, Layout.isActive.
  induction navItems as [|i l IH]; simpl; [reflexivity|].
  destruct (String.eqb pathname (Layout.href i)); simpl; now rewrite IH.
Qed.

Lemma filter_eqb_NoDup pathname hrefs :
  NoDup hrefs -> length (filter (String.eqb pathname) hrefs) <= 1.
Proof.
  induction 1 as [|h l Hnotin Hnd IH]; simpl; [lia|].
  destruct (String.eqb_spec pathname h) as [->|Hne]; [|exact IH].
  simpl. assert (Hnone : filter (String.eqb h) l = []).
  { clear -Hnotin. induction l as [|x l IH]; simpl; [reflexivity|].
    simpl in Hnotin.
    destruct (String.eqb_spec h x) as [->|_]; [tauto|]. apply IH. tauto. }
  rewrite Hnone. simpl. lia.
Qed.

(** Highlighting in the navigation bars. An item is highlighted exactly
    when the path is its link, letter for letter: with links that are
    pairwise different at most one item is highlighted, one is exactly
    when the path is among the links, and a page below a link
    (the link, a slash, anything) highlights nothing for that link. *)
Theorem nav_highlights_exact_path_only :
  forall pathname navItems,
    NoDup (map Layout.href navItems) ->
    length (Layout.activeItems pathname navItems) <= 1 /\
    (Layout.activeItems pathname navItems <> []
     <-> In pathname (map Layout.href navItems)) /\
    (forall item, In item (Layout.activeItems pathname navItems)
                  -> Layout.href item = pathname /\ In item navItems) /\
    (forall item rest,
        Layout.isActive (Layout.href item ++ "/" ++ rest)%string item = false).
Proof.
  intros pathname navItems Hnd.
  split; [|split; [split|split]].
  - rewrite <- (length_map Layout.href), activeItems_hrefs.
    now apply filter_eqb_NoDup.
  - intros Hne. destruct (Layout.activeItems pathname navItems) as [|i l] eqn:E;
      [congruence|].
    assert (Hin : In i (Layout.activeItems pathname navItems))
      by (rewrite E; now left).
    unfold Layout.activeItems in Hin. apply filter_In in Hin.
    destruct Hin as [Hin Hact]. unfold Layout.isActive in Hact.
    apply String.eqb_eq in Hact. rewrite Hact. now apply in_map.
  - intros Hin Hnil. apply in_map_iff in Hin. destruct Hin as [i [Hi Hin]].
    assert (Hact : In i (Layout.activeItems pathname navItems)).
    { unfold Layout.activeItems. apply filter_In. split; [exact Hin|].
      unfold Layout.isActive. rewrite Hi. apply String.eqb_refl. }
    rewrite Hnil in Hact. contradiction.
  - intros item Hitem. unfold Layout.activeItems in Hitem.
    apply filter_In in Hitem. destruct Hitem as [Hin Hact].
    unfold Layout.isActive in Hact. apply String.eqb_eq in Hact.
    split; [now symmetry | exact Hin].
  - intros item rest. unfold Layout.isActive.
    destruct (String.eqb_spec (Layout.href item ++ "/" ++ rest)%string
                              (Layout.href item)) as [E|_]; [|reflexivity].
    apply (f_equal String.length) in E.
    rewrite string_length_app in E. simpl in E. lia.
Qed.

(** The theorem at a bar of three links, on the second page. *)
Lemma nav_highlights_sample :
  let navItems :=
    [ {| Layout.href := "/events"; Layout.label := "Events"; Layout.icon := "" |};
      {| Layout.href := "/tickets"; Layout.label := "Tickets"; Layout.icon := "" |};
      {| Layout.href := "/waitlist"; Layout.label := "Waitlist"; Layout.icon := "" |} ] in
  length (Layout.activeItems "/tickets" navItems) <= 1 /\
  (Layout.activeItems "/tickets" navItems <> []
   <-> In "/tickets" (map Layout.href navItems)) /\
  (forall item, In item (Layout.activeItems "/tickets" navItems)
                -> Layout.href item = "/tickets" /\ In item navItems) /\
  (forall item rest,
      Layout.isActive (Layout.href item ++ "/" ++ rest)%string item = false).
Proof.
  apply (nav_highlights_exact_path_only "/tickets"
           [ {| Layout.href := "/events"; Layout.label := "Events"; Layout.icon := "" |};
             {| Layout.href := "/tickets"; Layout.label := "Tickets"; Layout.icon := "" |};
             {| Layout.href := "/waitlist"; Layout.label := "Waitlist"; Layout.icon := "" |} ]).
  simpl. repeat constructor; simpl; intuition discriminate.
Defined.

(** [getSignedImageUrl] returns a URL exactly when the image name is
    neither null nor empty, the storage call for that name made without
    error, and its data carry a signed URL that is not empty; the URL
    returned is that one, the expiry asked for is the argument or 60
    seconds when it is left out, and the result is never the empty
    string. *)
Theorem getSignedImageUrl_returns_iff :
  forall createSignedUrl imgName expiresIn url,
    Storage.getSignedImageUrl createSignedUrl imgName expiresIn = Some url <->
    exists name,
      imgName = Some name /\ name <> "" /\ url <> "" /\
      let answer := createSignedUrl name (match expiresIn with
                                          | Some n => n
                                          | None => 60
                                          end) in
      Storage.signed_error answer = None /\
      Storage.signed_data answer = Some (Some url).
Proof.
  intros createSignedUrl imgName expiresIn url.
  unfold Storage.getSignedImageUrl, truthy.
  destruct imgName as [name|].
  2:{ split; [discriminate | intros (n & H & _); discriminate]. }
  destruct (String.eqb_spec name "") as [->|Hname].
  { split; [discriminate|]. intros (n & [= <-] & H & _). now elim H. }
  set (answer := createSignedUrl name _).
  split.
  - destruct (Storage.signed_error answer) eqn:He; [discriminate|].
    destruct (Storage.signed_data answer) as [[u|]|] eqn:Hd; try discriminate.
    destruct (String.eqb_spec u ""); [discriminate|].
    intros [= <-]. exists name. repeat split; auto.
  - intros (n & [= <-] & _ & Hurl & He & Hd). fold answer in He, Hd.
    rewrite He, Hd. now destruct (String.eqb_spec url "").
Qed.

(* ===================================================================== *)
(** * The viewer: what a resolved request may change *)
(* ===================================================================== *)

(** What [fetchWaitlist] may change once its request has resolved.
    Whatever the response, the viewer stops loading and the selection
    stays. A response that is not ok, not announced as JSON or not
    parseable leaves the list and the mode alone and sets an error; any
    other response replaces the list by the one of its body (the
    leaderboard of a grouped body, the waitlist of a single-event body,
    the empty list for a body with neither), sets the mode to the body's
    [grouped], which fits the new list, and leaves the error as the start
    of the request left it. *)
Theorem resolved_request_frame :
  forall s response,
    let s' := Viewer.fetch_settle s response in
    Viewer.isLoading s' = false /\
    Viewer.selectedEventId s' = Viewer.selectedEventId s /\
    (Viewer.succeeds response = false ->
     Viewer.shown s' = Viewer.shown s /\
     Viewer.grouped s' = Viewer.grouped s /\
     Viewer.errorMessage s' <> None) /\
    (Viewer.succeeds response = true ->
     Viewer.shown s'
     = match Viewer.parsed response with
       | inr (GroupedBody leaderboard) => Viewer.Groups leaderboard
       | inr (SingleBody _ waitlist _) => Viewer.Entries waitlist
       | _ => Viewer.Entries []
       end /\
     Viewer.grouped s'
     = match Viewer.parsed response with
       | inr (GroupedBody _) => true
       | _ => false
       end /\
     Viewer.errorMessage s' = Viewer.errorMessage s /\
     Viewer.grouped s'
     = match Viewer.shown s' with
       | Viewer.Groups _ => true
       | Viewer.Entries _ => false
       end).
Proof.
  intros s response s'. unfold s', Viewer.fetch_settle, Viewer.succeeds.
  destruct (Viewer.ok response); simpl.
  - destruct (Viewer.contentType response) as [ct|]; simpl.
    + destruct (Viewer.mentions_json ct); simpl.
      * destruct (Viewer.parsed response) as [msg|[e|ev wl n|lb]]; simpl;
          repeat split; try discriminate; auto.
      * repeat split; try discriminate; auto.
    + repeat split; try discriminate; auto.
  - destruct (Viewer.parsed response) as [msg|[e|ev wl n|lb]]; simpl;
      repeat split; try discriminate; auto.
Qed.
